(** * Gomoku core and replay generation: a shallow embedding

    Board, game state machine, coordinate parser and formatter
    (gomoku-core), the replay generator and the move selection of the
    DDQN agent (gomoku-agent).  [usize] is modelled as [nat] for board
    quantities and as [N] (with explicit overflow checks) in the parser,
    [isize] coordinates as [Z].  A Rust panic (an [unwrap] on [None] or
    [Err], an arithmetic overflow in a debug build) is the [Panic] outcome. *)

From Stdlib Require Import ZArith Lia Bool.
From Stdlib Require Ascii String.
From stdpp Require Import base list.

Open Scope nat_scope.

(** ** Outcomes: a value or a panic *)

Inductive outcome (A : Type) : Type :=
| Done : A -> outcome A
| Panic : outcome A.
Arguments Done {A} _.
Arguments Panic {A}.

Definition obind {A B} (m : outcome A) (k : A -> outcome B) : outcome B :=
  match m with Done a => k a | Panic => Panic end.

Global Instance outcome_ret : MRet outcome := fun A a => Done a.
Global Instance outcome_bind : MBind outcome := fun A B k m => obind m k.

(** [Option::unwrap] and [Result::unwrap]. *)
Definition unwrap {A} (o : option A) : outcome A :=
  match o with Some a => Done a | None => Panic end.

(** ** Cells and turns (board.rs, game.rs) *)

Inductive Cell := Empty | Black | White.
Inductive Turn := TBlack | TWhite.
Inductive GameResult := Draw | Win (t : Turn).

Global Instance Cell_eq_dec : EqDecision Cell.
Proof. solve_decision. Defined.
Global Instance Turn_eq_dec : EqDecision Turn.
Proof. solve_decision. Defined.
Global Instance GameResult_eq_dec : EqDecision GameResult.
Proof. solve_decision. Defined.

Definition is_empty (c : Cell) : bool :=
  match c with Empty => true | _ => false end.

Definition next (t : Turn) : Turn :=
  match t with TBlack => TWhite | TWhite => TBlack end.

(** [impl From<Turn> for Cell] *)
Definition cell_of_turn (t : Turn) : Cell :=
  match t with TBlack => Black | TWhite => White end.

(** ** Board *)

Record Board := mkBoard { board_size : nat; cells : list Cell }.

Definition Board_new (n : nat) : Board := mkBoard n (repeat Empty (n * n)).

(** [self.cells.get(index).copied()] *)
Definition get_cell (b : Board) (i : nat) : option Cell := cells b !! i.

(** [self.cells[index] = cell]; every call site has checked the index first. *)
Definition set_cell (b : Board) (i : nat) (c : Cell) : Board :=
  mkBoard (board_size b) (<[i:=c]> (cells b)).

(** [legal_moves]: the indices of the empty cells, ascending. *)
Fixpoint legal_from (k : nat) (cs : list Cell) : list nat :=
  match cs with
  | [] => []
  | c :: cs' => if is_empty c then k :: legal_from (S k) cs' else legal_from (S k) cs'
  end.
Definition legal_moves (b : Board) : list nat := legal_from 0 (cells b).

(** ** Run lengths: [count_consecutive_cells] *)

(** The [while] loop of [count_consecutive_cells_in_direction]; every
    iteration moves one step along the axis, so it runs at most
    [board_size] times and [fuel] = [board_size + 1] never runs out
    (see [count_dir_fuel_indep]). *)
Fixpoint count_dir_fuel (fuel : nat) (b : Board) (x y : Z) (c : Cell) (dx dy : Z)
    (count : nat) : nat :=
  match fuel with
  | O => count
  | S f =>
      let n := Z.of_nat (board_size b) in
      if (0 <=? x)%Z && (x <? n)%Z && (0 <=? y)%Z && (y <? n)%Z then
        let index := Z.to_nat (y * n + x)%Z in
        if decide (nth index (cells b) Empty = c) then
          count_dir_fuel f b (x + dx)%Z (y + dy)%Z c dx dy (S count)
        else count
      else count
  end.

Definition count_consecutive_cells_in_direction (b : Board) (x y : Z) (c : Cell)
    (dx dy : Z) : nat :=
  count_dir_fuel (S (board_size b)) b x y c dx dy 0.

(** [sort_unstable_by_key(|&count| Reverse(count))]: a descending sort.
    The key is the value itself, so every sorting algorithm yields the
    same list. *)
Fixpoint insert_desc (a : nat) (l : list nat) : list nat :=
  match l with
  | [] => [a]
  | h :: t => if h <? a then a :: h :: t else h :: insert_desc a t
  end.
Fixpoint sort_desc (l : list nat) : list nat :=
  match l with [] => [] | h :: t => insert_desc h (sort_desc t) end.

(** [while let Some(&count) = results.last() { if count < 2 { pop } else break }] *)
Fixpoint drop_small (l : list nat) : list nat :=
  match l with
  | [] => []
  | h :: t => if h <? 2 then drop_small t else h :: t
  end.
Definition pop_small (l : list nat) : list nat := rev (drop_small (rev l)).

(** The four axis totals, in the order of the [vec!]. *)
Definition axis_counts (b : Board) (index : nat) (c : Cell) : list nat :=
  let n := Z.of_nat (board_size b) in
  let x := (Z.of_nat index mod n)%Z in
  let y := (Z.of_nat index / n)%Z in
  let cd := count_consecutive_cells_in_direction b in
  [ 1 + cd (x + 1)%Z y c 1%Z 0%Z + cd (x - 1)%Z y c (-1)%Z 0%Z;
    1 + cd x (y + 1)%Z c 0%Z 1%Z + cd x (y - 1)%Z c 0%Z (-1)%Z;
    1 + cd (x + 1)%Z (y - 1)%Z c 1%Z (-1)%Z + cd (x - 1)%Z (y + 1)%Z c (-1)%Z 1%Z;
    1 + cd (x + 1)%Z (y + 1)%Z c 1%Z 1%Z + cd (x - 1)%Z (y - 1)%Z c (-1)%Z (-1)%Z ].

Definition count_consecutive_cells (b : Board) (index : nat) (t : Turn) : list nat :=
  match get_cell b index with
  | None => []
  | Some c =>
      if decide (c = cell_of_turn t) then pop_small (sort_desc (axis_counts b index c))
      else []
  end.

(** ** Game and [place_stone] (game.rs) *)

Record Game := mkGame {
  g_board_size : nat;
  g_max_consecutive_stones : nat;
  g_turn : Turn;
  g_turn_count : nat;
  g_history : list (Turn * Board);
  g_game_result : option GameResult;
  g_board : Board
}.

Definition Game_new (n k : nat) : Game :=
  mkGame n k TBlack 0 [(TBlack, Board_new n)] None (Board_new n).

Record PlaceStoneResult := mkPSR {
  r_index : nat;
  r_stone : Cell;
  r_turn_was : Turn;
  r_board_was : Board;
  r_consecutive_stones : list nat;
  r_game_result : option GameResult
}.

Inductive PlaceStoneError :=
| InvalidIndex (index max_allowed_index : nat)
| StoneAlreadyPlaced (index : nat) (stone : Cell).

(** [place_stone(&mut self, index)]: the game after the call paired with
    the returned [Result]. *)
Definition place_stone (g : Game) (index : nat)
    : Game * (PlaceStoneResult + PlaceStoneError) :=
  let max_allowed_index := board_size (g_board g) * board_size (g_board g) in
  match get_cell (g_board g) index with
  | None => (g, inr (InvalidIndex index max_allowed_index))
  | Some cell =>
      if negb (is_empty cell) then (g, inr (StoneAlreadyPlaced index cell))
      else
        let board_was := g_board g in
        let board := set_cell (g_board g) index (cell_of_turn (g_turn g)) in
        let consecutive_stones := count_consecutive_cells board index (g_turn g) in
        let is_winning_move :=
          bool_decide (head consecutive_stones = Some (g_max_consecutive_stones g)) in
        let turn_was := g_turn g in
        let turn := next (g_turn g) in
        let turn_count := S (g_turn_count g) in
        let game_result :=
          if is_winning_move then Some (Win turn_was)
          else if turn_count =? max_allowed_index then Some Draw
          else g_game_result g in
        let history := g_history g ++ [(turn, board)] in
        (mkGame (g_board_size g) (g_max_consecutive_stones g) turn turn_count history
           game_result board,
         inl (mkPSR index (cell_of_turn turn) turn_was board_was consecutive_stones
                game_result))
  end.

(** ** Coordinate parser (board/index_parser.rs)

    The input is a sequence of ASCII characters; the [Peekable<Chars>]
    iterator is the list of characters not yet consumed.  Non-ASCII
    characters are outside the model. *)

Module IndexParser.

Definition code (c : Ascii.ascii) : nat := Ascii.nat_of_ascii c.

Definition is_ascii_alphabetic (c : Ascii.ascii) : bool :=
  ((65 <=? code c) && (code c <=? 90)) || ((97 <=? code c) && (code c <=? 122)).

Definition is_ascii_digit (c : Ascii.ascii) : bool :=
  (48 <=? code c) && (code c <=? 57).

(** [char::is_whitespace] on ASCII: U+0009..U+000D and U+0020. *)
Definition is_whitespace (c : Ascii.ascii) : bool :=
  (code c =? 32) || ((9 <=? code c) && (code c <=? 13)).

Definition to_ascii_lowercase (c : Ascii.ascii) : Ascii.ascii :=
  if (65 <=? code c) && (code c <=? 90) then Ascii.ascii_of_nat (code c + 32) else c.

(** [usize] in the parser: 64 bits, overflow checked (a panic). *)
Definition usize_max : N := (2 ^ 64 - 1)%N.
Definition checked (v : N) : outcome N := if (v <=? usize_max)%N then Done v else Panic.

Record Index := mkIndex { row : N; column : N }.

Definition is_valid (i : Index) (size : N) : bool :=
  (row i <? size)%N && (column i <? size)%N.

Definition to_index (i : Index) (size : N) : N := (row i * size + column i)%N.

Fixpoint skip_whitespace (cs : list Ascii.ascii) : list Ascii.ascii :=
  match cs with
  | c :: cs' => if is_whitespace c then skip_whitespace cs' else cs
  | [] => []
  end.

Fixpoint read_alpha_loop (cs : list Ascii.ascii) : list Ascii.ascii * list Ascii.ascii :=
  match cs with
  | c :: cs' =>
      if is_ascii_alphabetic c then
        let '(a, r) := read_alpha_loop cs' in (to_ascii_lowercase c :: a, r)
      else ([], cs)
  | [] => ([], [])
  end.

Definition read_alpha (cs : list Ascii.ascii) : option (list Ascii.ascii) * list Ascii.ascii :=
  let '(a, r) := read_alpha_loop cs in
  match a with [] => (None, r) | _ => (Some a, r) end.

Fixpoint read_number_loop (cs : list Ascii.ascii) : list Ascii.ascii * list Ascii.ascii :=
  match cs with
  | c :: cs' =>
      if is_ascii_digit c then
        let '(a, r) := read_number_loop cs' in (c :: a, r)
      else ([], cs)
  | [] => ([], [])
  end.

Definition read_number (cs : list Ascii.ascii) : option (list Ascii.ascii) * list Ascii.ascii :=
  let '(a, r) := read_number_loop cs in
  match a with [] => (None, r) | _ => (Some a, r) end.

Definition is_end (cs : list Ascii.ascii) : bool :=
  match cs with [] => true | _ => false end.

(** [alpha_to_index]: [index = index * 26 + c_index], both operations
    overflow checked. *)
Fixpoint alpha_acc (acc : N) (cs : list Ascii.ascii) : outcome N :=
  match cs with
  | [] => Done acc
  | c :: cs' =>
      let c_index := N.of_nat (code c - 97) in
      m ← checked (acc * 26)%N;
      s ← checked (m + c_index)%N;
      alpha_acc s cs'
  end.
Definition alpha_to_index (a : list Ascii.ascii) : outcome N := alpha_acc 0%N a.

(** [number.parse::<usize>().unwrap()] on a non-empty digit run: the
    parse fails, and the unwrap panics, exactly when the value exceeds
    [usize::MAX]. *)
Fixpoint digits_value (acc : N) (cs : list Ascii.ascii) : N :=
  match cs with
  | [] => acc
  | c :: cs' => digits_value (acc * 10 + N.of_nat (code c - 48))%N cs'
  end.
Definition number_to_index (n : list Ascii.ascii) : outcome N := checked (digits_value 0 n).

(** [x - 1] on [usize] (debug build: underflow panics). *)
Definition sub1 (v : N) : outcome N := if (v =? 0)%N then Panic else Done (v - 1)%N.

Definition validate (size : N) (i : Index) : outcome (option Index) :=
  Done (if is_valid i size then Some i else None).

Definition parse_pattern_alpha_number (size : N) (alpha cs : list Ascii.ascii)
    : outcome (option Index) :=
  let cs := skip_whitespace cs in
  match read_number cs with
  | (None, _) => Done None
  | (Some number, cs) =>
      let cs := skip_whitespace cs in
      if negb (is_end cs) then Done None
      else
        alpha_index ← alpha_to_index alpha;
        n ← number_to_index number;
        number_index ← sub1 n;
        validate size (mkIndex number_index alpha_index)
  end.

Definition parse_pattern_number_alpha (size : N) (number alpha cs : list Ascii.ascii)
    : outcome (option Index) :=
  let cs := skip_whitespace cs in
  if negb (is_end cs) then Done None
  else
    n ← number_to_index number;
    number_index ← sub1 n;
    alpha_index ← alpha_to_index alpha;
    validate size (mkIndex number_index alpha_index).

Definition parse_pattern_number_number (size : N) (number second cs : list Ascii.ascii)
    : outcome (option Index) :=
  let cs := skip_whitespace cs in
  if negb (is_end cs) then Done None
  else
    n ← number_to_index number;
    number_index ← sub1 n;
    m ← number_to_index second;
    second_number_index ← sub1 m;
    validate size (mkIndex second_number_index number_index).

(** [number_index / self.size] panics on a zero size. *)
Definition parse_pattern_number (size : N) (number cs : list Ascii.ascii)
    : outcome (option Index) :=
  let cs := skip_whitespace cs in
  if negb (is_end cs) then Done None
  else
    n ← number_to_index number;
    number_index ← sub1 n;
    if (size =? 0)%N then Panic
    else validate size (mkIndex (number_index / size) (number_index mod size)).

Definition parse (size : N) (input : list Ascii.ascii) : outcome (option Index) :=
  let cs := skip_whitespace input in
  match read_alpha cs with
  | (Some alpha, cs) => parse_pattern_alpha_number size alpha cs
  | (None, cs) =>
      match read_number cs with
      | (None, _) => Done None
      | (Some number, cs) =>
          let cs := skip_whitespace cs in
          match read_alpha cs with
          | (Some alpha, cs) => parse_pattern_number_alpha size number alpha cs
          | (None, cs) =>
              match read_number cs with
              | (Some second, cs) => parse_pattern_number_number size number second cs
              | (None, cs) =>
                  if is_end cs then parse_pattern_number size number cs else Done None
              end
          end
      end
  end.

End IndexParser.

(** [Board::parse_index] *)
Definition parse_index (b : Board) (s : list Ascii.ascii) : outcome (option nat) :=
  let size := N.of_nat (board_size b) in
  i ← IndexParser.parse size s;
  Done (match i with
        | Some i => Some (N.to_nat (IndexParser.to_index i size))
        | None => None
        end).

(** [format!("{}", n)] for a [usize]: decimal digits, most significant first. *)
Fixpoint decimal_rev (fuel n : nat) : list Ascii.ascii :=
  match fuel with
  | O => []
  | S f =>
      Ascii.ascii_of_nat (48 + n mod 10)
        :: (if n / 10 =? 0 then [] else decimal_rev f (n / 10))
  end.
Definition decimal (n : nat) : list Ascii.ascii := rev (decimal_rev (S n) n).

(** The [loop] of [index_to_position]: push [b'A' + x % 26], then
    [x /= 26] until [x] is zero.  Each pass divides [x] by 26, so [S x]
    passes are enough. *)
Fixpoint alpha_loop (fuel x : nat) (alpha : list Ascii.ascii) : list Ascii.ascii :=
  match fuel with
  | O => alpha
  | S f =>
      let alpha := alpha ++ [Ascii.ascii_of_nat (65 + x mod 26)] in
      let x := x / 26 in
      if x =? 0 then alpha else alpha_loop f x alpha
  end.

(** [Board::index_to_position] *)
Definition index_to_position (b : Board) (index : nat) : option (list Ascii.ascii) :=
  if board_size b * board_size b <=? index then None
  else
    let x := index mod board_size b in
    let y := index / board_size b in
    Some (alpha_loop (S x) x [] ++ decimal (y + 1)).

Definition str (s : String.string) : list Ascii.ascii := String.list_ascii_of_string s.
Import String.StringSyntax.
Delimit Scope string_scope with string.

(** ** Replay generation (gomoku-agent/src/replay.rs) and the DDQN agent *)

From Stdlib Require Import QArith.
Close Scope Q_scope.
Open Scope nat_scope.

(** [ReplayStep]; the reward is an [f32] whose values (100, -100, 1, 0)
    are exact, modelled as [Z]. *)
Record ReplayStep := mkStep {
  rs_turn : Turn;
  rs_action : nat;
  rs_boards : list (Turn * Board);
  rs_next_boards : option (list (Turn * Board));
  rs_game_result : option GameResult;
  rs_reward : Z
}.

Inductive Opponent := Random | SelfPlay.

(** [generate_history_boards]: [history.iter().rev().filter(..).take(4)],
    then [boards.insert(0, empty)] until there are four. *)
Definition generate_history_boards (player : Turn) (g : Game) : list (Turn * Board) :=
  let found :=
    take 4 (map (fun p => (player, snd p))
              (List.filter (fun p => bool_decide (fst p = player)) (rev (g_history g)))) in
  repeat (player, Board_new (g_board_size g)) (4 - length found) ++ found.

(** [slice.choose(&mut rng)]: the random draw [k] picks position
    [k mod len]; [None] on an empty slice. *)
Definition choose {A} (l : list A) (k : nat) : option A := l !! (k mod length l).

(** [Tensor::argmax] over a row: the position of the first maximum;
    the tensor of an empty selection has no arg-max (tch panics).
    Network outputs, [f32] in the code, are modelled as rationals. *)
Fixpoint argmax_from (k best : nat) (bv : Q) (l : list Q) : nat :=
  match l with
  | [] => best
  | v :: l' => if Qlt_le_dec bv v then argmax_from (S k) k v l' else argmax_from (S k) best bv l'
  end.
Definition argmax (l : list Q) : option nat :=
  match l with [] => None | v :: l' => Some (argmax_from 1 0 v l') end.

Section Agent.

(** The network: the row of per-cell scores that [model.forward_t]
    computes for the encoded history frames. *)
Variable forward : list (Turn * Board) -> list Q.

(** [GomokuDDQNAgent::next_move] *)
Definition next_move (g : Game) : outcome nat :=
  let boards := generate_history_boards (g_turn g) g in
  let output := forward boards in
  let legal := legal_moves (g_board g) in
  let legal_q_values := map (fun m => nth m output 0%Q) legal in
  action ← unwrap (argmax legal_q_values);
  Done action.

(** [Player::generate_move]: [RandomPlayer] (a uniform draw from the legal
    moves, unwrapped) or the agent ([next_move(game).unwrap()]). *)
Definition generate_move (o : Opponent) (g : Game) (k : nat) : outcome nat :=
  match o with
  | Random => unwrap (choose (legal_moves (g_board g)) k)
  | SelfPlay => next_move g
  end.

(** [place_stone(..).unwrap()] *)
Definition place_unwrap (g : Game) (i : nat) : outcome (Game * PlaceStoneResult) :=
  match place_stone g i with
  | (g', inl r) => Done (g', r)
  | (_, inr _) => Panic
  end.

(** The random draws of one [sample_replay] call: the coin flip of a
    reset, the uniform choices of the random player before and after the
    learner, whether the learner explores ([1e-4 < epsilon &&
    rng.gen_bool(epsilon)]) and its uniform choice when it does. *)
Record Draws := mkDraws {
  d_coin : bool;
  d_pre : nat;
  d_explore : bool;
  d_agent : nat;
  d_opp : nat
}.

Definition compute_nonterminal_reward (r : PlaceStoneResult) : Z :=
  let defensive :=
    let virtual_board := set_cell (r_board_was r) (r_index r) (cell_of_turn (next (r_turn_was r))) in
    match head (count_consecutive_cells virtual_board (r_index r) (next (r_turn_was r))) with
    | Some n => if (4 <=? n) && (n <=? 5) then 1%Z else 0%Z
    | None => 0%Z
    end in
  match head (r_consecutive_stones r) with
  | Some n => if (3 <=? n) && (n <=? 5) then 1%Z else defensive
  | None => defensive
  end.

(** The first part of [sample_replay]: the reset of a finished game and
    the forced opponent move. *)
Definition sample_prefix (g : Game) (agent_turn : Turn) (o : Opponent) (d : Draws)
    : outcome (Game * Turn) :=
  let '(g, agent_turn) :=
    if is_Some_dec (g_game_result g) then
      (Game_new (g_board_size g) (g_max_consecutive_stones g),
       if d_coin d then TBlack else TWhite)
    else (g, agent_turn) in
  if decide (g_turn g <> agent_turn) then
    action ← generate_move o g (d_pre d);
    gr ← place_unwrap g action;
    Done (fst gr, agent_turn)
  else Done (g, agent_turn).

(** The rest of [sample_replay], from the learner's move on. *)
Definition sample_from (g : Game) (agent_turn : Turn) (o : Opponent) (d : Draws)
    : outcome (Game * Turn * ReplayStep) :=
  let boards := generate_history_boards agent_turn g in
  agent_action ←
    (if d_explore d then unwrap (choose (legal_moves (g_board g)) (d_agent d))
     else generate_move SelfPlay g 0);
  gr ← place_unwrap g agent_action;
  let '(g, result_after_agent) := gr in
  if is_Some_dec (r_game_result result_after_agent) then
    Done (g, agent_turn,
          mkStep (r_turn_was result_after_agent) agent_action boards None
            (r_game_result result_after_agent) 100%Z)
  else
    opponent_action ← generate_move o g (d_opp d);
    gr' ← place_unwrap g opponent_action;
    let '(g, result_after_opponent) := gr' in
    if is_Some_dec (r_game_result result_after_opponent) then
      Done (g, agent_turn,
            mkStep (r_turn_was result_after_opponent) opponent_action boards None
              (r_game_result result_after_opponent) (-100)%Z)
    else
      let reward := compute_nonterminal_reward result_after_agent in
      let next_boards := Some (generate_history_boards (g_turn g) g) in
      Done (g, agent_turn,
            mkStep (r_turn_was result_after_agent) agent_action boards next_boards
              (r_game_result result_after_agent) reward).

Definition sample_replay (g : Game) (agent_turn : Turn) (o : Opponent) (d : Draws)
    : outcome (Game * Turn * ReplayStep) :=
  gt ← sample_prefix g agent_turn o d;
  sample_from (fst gt) (snd gt) o d.

End Agent.

(** ** TD target (trainer.rs, [loss::compute_td_target]) *)

(** [pairs.iter().max_by(|(_, l), (_, r)| f64::total_cmp(l, r))]: Rust's
    [max_by] keeps the last of several maximal elements. *)
Fixpoint max_by_from (best : nat * Q) (l : list (nat * Q)) : nat * Q :=
  match l with
  | [] => best
  | p :: l' => if Qlt_le_dec (snd p) (snd best) then max_by_from best l' else max_by_from p l'
  end.
Definition max_by (l : list (nat * Q)) : option (nat * Q) :=
  match l with [] => None | p :: l' => Some (max_by_from p l') end.

Section TD.

Variables online target : list (Turn * Board) -> list Q.
Variable gamma : Q.

(** [step.next_boards.as_ref().unwrap_or(&step.boards)] *)
Definition td_frames (step : ReplayStep) : list (Turn * Board) :=
  match rs_next_boards step with Some nb => nb | None => rs_boards step end.

(** The loop body "apply argmax only to legal moves": [action_values] is
    the online network's row for the step's frames; the legal moves are
    those of [step.boards.last().unwrap().1].  Every legal move is below
    [size * size], the row's length, so the [nth] default is never read. *)
Definition td_best_action (step : ReplayStep) : outcome nat :=
  let action_values := online (td_frames step) in
  board ← unwrap (last (rs_boards step));
  let pairs := map (fun a => (a, nth a action_values 0%Q)) (legal_moves (snd board)) in
  best ← unwrap (max_by pairs);
  Done (fst best).

(** [r + (1.0 - is_done) * gamma * target_q] for one step of the batch. *)
Definition td_target_of (step : ReplayStep) : outcome Q :=
  a ← td_best_action step;
  let target_q := nth a (target (td_frames step)) 0%Q in
  let is_done := if is_Some_dec (rs_game_result step) then 1%Q else 0%Q in
  Done (inject_Z (rs_reward step) + (1 - is_done) * gamma * target_q)%Q.

Fixpoint compute_td_target (batch : list ReplayStep) : outcome (list Q) :=
  match batch with
  | [] => Done []
  | s :: b =>
      t ← td_target_of s;
      ts ← compute_td_target b;
      Done (t :: ts)
  end.

End TD.

(** ** Reachable games and their invariant *)

Inductive reachable : Game -> Prop :=
| reach_new n k : reachable (Game_new n k)
| reach_step g i g' r : reachable g -> place_stone g i = (g', inl r) -> reachable g'.

Definition filled (cs : list Cell) : nat :=
  length (List.filter (fun c => negb (is_empty c)) cs).

Definition game_inv (g : Game) : Prop :=
  board_size (g_board g) = g_board_size g /\
  length (cells (g_board g)) = g_board_size g * g_board_size g /\
  filled (cells (g_board g)) = g_turn_count g /\
  (g_game_result g = None ->
   g_turn_count g < g_board_size g * g_board_size g \/ g_board_size g = 0).

(** ** Run lists: shape and maximum *)

Fixpoint sorted_desc (l : list nat) : Prop :=
  match l with
  | a :: ((b :: _) as t) => b <= a /\ sorted_desc t
  | _ => True
  end.

(** The non-terminal reward in the words of the spec (section 4.4),
    stated on the board before the learner's move, the learner's index
    and its turn; compared with [compute_nonterminal_reward] below. *)
Definition spec_nonterminal_reward (pre : Board) (i : nat) (learner : Turn) : Z :=
  let in_range lo hi o :=
    match o with Some n => (lo <=? n) && (n <=? hi) | None => false end in
  if in_range 3 5 (head (count_consecutive_cells (set_cell pre i (cell_of_turn learner)) i learner))
  then 1%Z
  else if in_range 4 5 (head (count_consecutive_cells
                                (set_cell pre i (cell_of_turn (next learner))) i (next learner)))
  then 1%Z else 0%Z.

(** Round-trip check of one index on a board of width [n]; the
    formatter and the parser read nothing of the board but its size. *)
Definition roundtrip_ok (n i : nat) : bool :=
  match index_to_position (mkBoard n []) i with
  | Some s =>
      match parse_index (mkBoard n []) s with
      | Done (Some j) => i =? j
      | _ => false
      end
  | None => false
  end.

(** ** Concrete scenarios *)

(** Draws of a replay call in which every uniform choice picks the first
    legal move and the learner explores. *)
Definition replay_draws : Draws := mkDraws true 0 true 0 0.

(** Two [sample_replay] calls from [Game::new(2, 5)], learner Black,
    random opponent: the first plays 0 (learner) and 1 (opponent). *)
Definition replay_g1 : Game :=
  match sample_replay (fun _ => []) (Game_new 2 5) TBlack Random replay_draws with
  | Done (g, _, _) => g
  | Panic => Game_new 2 5
  end.

(** Network row preferring cell 1 on a 15x15 board. *)
Definition scores_prefer_1 (_ : list (Turn * Board)) : list Q :=
  map (fun k => if k =? 1 then 1%Q else 0%Q) (seq 0 225).

(** Network row preferring cell 0 on a 15x15 board. *)
Definition online_prefer_0 (_ : list (Turn * Board)) : list Q :=
  map (fun k => if k =? 0 then 1%Q else 0%Q) (seq 0 225).

(** Steps left before the walk from [(x, y)] along [(dx, dy)] leaves the board. *)
Definition dir_measure (n x y dx dy : Z) : nat :=
  Z.to_nat (if (dx =? 1)%Z then n - x else if (dx =? -1)%Z then x + 1
            else if (dy =? 1)%Z then n - y else y + 1)%Z.

(** ** More of board.rs: occupied cells *)

(** [Board::illegal_moves]: the indices of the occupied cells, ascending. *)
Fixpoint illegal_from (k : nat) (cs : list Cell) : list nat :=
  match cs with
  | [] => []
  | c :: cs' => if is_empty c then illegal_from (S k) cs' else k :: illegal_from (S k) cs'
  end.
Definition illegal_moves (b : Board) : list nat := illegal_from 0 (cells b).

(** ** The two-player command line (gomoku-cli-pvp/src/main.rs) *)



(** ** The training loop (gomoku_ddqn/trainer.rs) *)

From Stdlib Require Import Qminmax Sorted.
Close Scope Q_scope.
Open Scope nat_scope.

(** The replay-buffer update of [GomokuDDQNTrainer::train]: the
    [VecDeque] as a list, front first; [pop_front] when the buffer is
    non-empty and full, then [push_back]. *)
Definition buffer_push {A} (replay_buffer_size : nat) (buf : list A) (x : A) : list A :=
  let nonempty := match buf with [] => false | _ => true end in
  let buf := if nonempty && (replay_buffer_size <=? length buf) then tail buf else buf in
  buf ++ [x].

(** [epsilon *= epsilon_decay; epsilon = epsilon.max(epsilon_min)], with
    [f64] modelled as [Q]. *)
Definition epsilon_update (epsilon_decay epsilon_min epsilon : Q) : Q :=
  Qmax (epsilon * epsilon_decay) epsilon_min.

(** [Vec::swap_remove]: the element at [index] is replaced by the last
    one, which is removed; an index out of range panics. *)
Definition swap_remove {A} (l : list A) (index : nat) : outcome (list A) :=
  match last l with
  | None => Panic
  | Some x => if index <? length l then Done (take (length l - 1) (<[index:=x]> l)) else Panic
  end.

(** [loss_visualizer::LossVisualizer] *)
Record LossVisualizer := mkLossVisualizer { losses : list Q }.

Definition LossVisualizer_new : LossVisualizer := mkLossVisualizer [].

Definition lv_add (v : LossVisualizer) (loss : Q) : outcome LossVisualizer :=
  ls ← (if 100 <=? length (losses v) then swap_remove (losses v) 0 else Done (losses v));
  Done (mkLossVisualizer (ls ++ [loss])).

(** Successive [add] calls. *)
Fixpoint lv_add_all (v : LossVisualizer) (xs : list Q) : outcome LossVisualizer :=
  match xs with
  | [] => Done v
  | x :: xs' => v' ← lv_add v x; lv_add_all v' xs'
  end.

(** ** Weight blending (nn_utils.rs, model.rs) *)



(** Powers of a rational, for the closed form of repeated blending. *)
Fixpoint qpow (q : Q) (k : nat) : Q :=
  match k with O => 1%Q | S k' => (qpow q k' * q)%Q end.

(** ** Board encoding (gomoku_ddqn/model.rs, [create_board_tensor]) *)

(** The turn channel: [1] for black, [-1] for white. *)
Definition turn_value (t : Turn) : Z := match t with TBlack => 1%Z | TWhite => (-1)%Z end.

(** [offset]: 0 for an empty cell, 1 for a stone of the point of view, 2 otherwise. *)
Definition cell_offset (point_of_view c : Cell) : nat :=
  match c with Empty => 0 | _ => if decide (c = point_of_view) then 1 else 2 end.

(** The loop [data[(offset * 15 * 15) + i] = 1f32] over the cells;
    an index past the end of [data] panics. *)
Fixpoint encode_cells (point_of_view : Cell) (i : nat) (cs : list Cell) (data : list Z)
    : outcome (list Z) :=
  match cs with
  | [] => Done data
  | c :: cs' =>
      let k := cell_offset point_of_view c * 15 * 15 + i in
      if k <? length data then encode_cells point_of_view (S i) cs' (<[k:=1%Z]> data)
      else Panic
  end.

(** One frame of [create_board_tensor]: its four channels of 15 x 15
    values, the first filled with the turn value, the other three the
    planes of [data] (empty, own stone, opponent stone). *)
Definition encode_frame (tb : Turn * Board) : outcome (list (list Z)) :=
  let '(turn, board) := tb in
  let point_of_view := cell_of_turn turn in
  data ← encode_cells point_of_view 0 (cells board) (repeat 0%Z (3 * 15 * 15));
  Done [repeat (turn_value turn) (15 * 15); take (15 * 15) data;
        take (15 * 15) (drop (15 * 15) data); drop (2 * 15 * 15) data].

(** [create_board_tensor]: the channels of the frames, in order. *)
Fixpoint create_board_tensor (boards : list (Turn * Board)) : outcome (list (list Z)) :=
  match boards with
  | [] => Done []
  | tb :: bs => f ← encode_frame tb; r ← create_board_tensor bs; Done (f ++ r)
  end.

(** Exchanging the colors of every stone (a statement device). *)
Definition swap_cell (c : Cell) : Cell :=
  match c with Empty => Empty | Black => White | White => Black end.
Definition swap_board (b : Board) : Board := mkBoard (board_size b) (map swap_cell (cells b)).

(** The one-hot plane of offset [k] over the cells (a statement device):
    [1] where the cell's offset is [k], [0] elsewhere. *)
Definition one_hot_plane (point_of_view : Cell) (k : nat) (cs : list Cell) : list Z :=
  map (fun c => if cell_offset point_of_view c =? k then 1%Z else 0%Z) cs.

(** A sequence of successful [place_stone] calls ([None] at the first error). *)
Fixpoint play (g : Game) (moves : list nat) : option Game :=
  match moves with
  | [] => Some g
  | i :: ms => match place_stone g i with (g', inl _) => play g' ms | (_, inr _) => None end
  end.

Definition played (n k : nat) (moves : list nat) : Game :=
  match play (Game_new n k) moves with Some g => g | None => Game_new n k end.

(** A terminal step of a 15 x 15 game: the learner's frames of the
    initial position, action 0, a draw, reward 100. *)
Definition terminal_step : ReplayStep :=
  mkStep TBlack 0 (generate_history_boards TBlack (Game_new 15 5)) None (Some Draw) 100%Z.


(** The player to move after [j] moves from a new game. *)
Definition turn_at (j : nat) : Turn := if Nat.even j then TBlack else TWhite.

(** Concrete games: a 2 x 2 board with threshold 2 won by black, a
    1 x 1 board filled by one move (a draw), and a 15 x 15 game after the
    moves 0 (black) and 1 (white). *)
Definition win_2x2 : Game := played 2 2 [0; 2; 1].
Definition draw_1x1 : Game := played 1 5 [0].
Definition two_moves : Game := played 15 5 [0; 1].
(** * Properties *)

Example place_five_in_a_row :
  let g0 := Game_new 15 5 in
  let step g i := fst (place_stone g i) in
  let g := step (step (step (step (step (step (step (step (step g0 0) 15) 1) 16) 2) 17) 3) 18) 4 in
  g_game_result g = Some (Win TBlack).
Proof. vm_compute. reflexivity. Qed.

Example count_consecutive_cells_test :
  let b := mkBoard 15 (<[48:=Black]> (<[32:=Black]> (<[16:=Black]>
             (<[45:=White]> (<[30:=White]> (<[15:=White]>
             (<[3:=Black]> (<[2:=Black]> (<[1:=Black]> (<[0:=Black]>
             (repeat Empty 225))))))))))) in
  count_consecutive_cells b 0 TBlack = [4; 4] /\
  count_consecutive_cells b 15 TWhite = [3] /\
  count_consecutive_cells b 16 TBlack = [4; 2; 2] /\
  count_consecutive_cells b 230 TBlack = [].
Proof. vm_compute. repeat split. Qed.

Example parse_index_tests :
  let b := Board_new 15 in
  parse_index b (str "a1"%string) = Done (Some 0) /\
  parse_index b (str "O15"%string) = Done (Some 224) /\
  parse_index b (str "15o"%string) = Done (Some 224) /\
  parse_index b (str "3c"%string) = Done (Some 32) /\
  parse_index b (str "  1  1  "%string) = Done (Some 0) /\
  parse_index b (str "1 15"%string) = Done (Some 210) /\
  parse_index b (str "225"%string) = Done (Some 224) /\
  parse_index b [] = Done None /\
  parse_index b (str " "%string) = Done None /\
  parse_index b (str "a"%string) = Done None /\
  parse_index b (str "hello, world! 15a"%string) = Done None /\
  parse_index b (str "15 1 15"%string) = Done None.
Proof. vm_compute. repeat split. Qed.

Example index_to_position_tests :
  index_to_position (Board_new 15) 0 = Some (str "A1"%string) /\
  index_to_position (Board_new 15) 16 = Some (str "B2"%string) /\
  index_to_position (Board_new 15) 224 = Some (str "O15"%string) /\
  index_to_position (Board_new 15) 225 = None.
Proof. vm_compute. repeat split. Qed.

(** [place_stone] succeeds exactly on an empty cell, and then performs
    the update written out in its body. *)
Lemma place_stone_ok g i g' r :
  place_stone g i = (g', inl r) ->
  get_cell (g_board g) i = Some Empty /\
  let board := set_cell (g_board g) i (cell_of_turn (g_turn g)) in
  let cs := count_consecutive_cells board i (g_turn g) in
  let n := board_size (g_board g) in
  let result :=
    if bool_decide (head cs = Some (g_max_consecutive_stones g)) then Some (Win (g_turn g))
    else if S (g_turn_count g) =? n * n then Some Draw else g_game_result g in
  g' = mkGame (g_board_size g) (g_max_consecutive_stones g) (next (g_turn g))
         (S (g_turn_count g)) (g_history g ++ [(next (g_turn g), board)]) result board /\
  r = mkPSR i (cell_of_turn (next (g_turn g))) (g_turn g) (g_board g) cs result.
Proof.
  unfold place_stone. destruct (get_cell (g_board g) i) as [c|] eqn:E; [|discriminate].
  destruct c; simpl; try discriminate. intros [= <- <-]. auto.
Qed.

Lemma place_stone_err g i g' e : place_stone g i = (g', inr e) -> g' = g.
Proof.
  unfold place_stone. destruct (get_cell (g_board g) i) as [c|]; [|congruence].
  destruct c; simpl; congruence.
Qed.

Lemma filled_insert_empty cs i c :
  cs !! i = Some Empty -> c <> Empty -> filled (<[i:=c]> cs) = S (filled cs).
Proof.
  unfold filled. revert i. induction cs as [|c0 cs IH]; intros [|i] Hi Hc; simpl in *.
  - discriminate.
  - discriminate.
  - injection Hi as ->. destruct c; simpl; congruence.
  - destruct (is_empty c0); simpl; rewrite (IH i) by assumption; reflexivity.
Qed.

Lemma filled_le cs : filled cs <= length cs.
Proof.
  unfold filled. induction cs as [|c cs IH]; simpl; [lia|].
  destruct (is_empty c); simpl; lia.
Qed.

Lemma legal_from_nil k cs : legal_from k cs = [] -> filled cs = length cs.
Proof.
  unfold filled. revert k. induction cs as [|c cs IH]; intros k; simpl; [reflexivity|].
  destruct (is_empty c) eqn:E; [discriminate|]. simpl. intros H. rewrite (IH _ H). reflexivity.
Qed.

Lemma filled_repeat_empty m : filled (repeat Empty m) = 0.
Proof. unfold filled. induction m; simpl; auto. Qed.

Lemma game_inv_new n k : game_inv (Game_new n k).
Proof.
  unfold game_inv, Game_new, Board_new; simpl.
  rewrite repeat_length, filled_repeat_empty. repeat split; auto.
  intros _. destruct n; [right; reflexivity | left; lia].
Qed.

Lemma get_cell_lt b i c : get_cell b i = Some c -> i < length (cells b).
Proof. unfold get_cell. intros H. apply lookup_lt_Some with c. exact H. Qed.

Lemma game_inv_step g i g' r : game_inv g -> place_stone g i = (g', inl r) -> game_inv g'.
Proof.
  intros (Hbs & Hlen & Hfill & Hres) Hp.
  destruct (place_stone_ok _ _ _ _ Hp) as (Hget & -> & _).
  pose proof (get_cell_lt _ _ _ Hget) as Hi.
  assert (Hf : filled (<[i:=cell_of_turn (g_turn g)]> (cells (g_board g)))
               = S (filled (cells (g_board g)))).
  { apply filled_insert_empty; [exact Hget | destruct (g_turn g); discriminate]. }
  pose proof (filled_le (<[i:=cell_of_turn (g_turn g)]> (cells (g_board g)))) as Hle.
  rewrite length_insert in Hle.
  destruct (bool_decide _);
    [| destruct (S (g_turn_count g) =? board_size (g_board g) * board_size (g_board g)) eqn:E];
    unfold game_inv; cbn [g_board g_board_size g_turn_count g_game_result board_size cells set_cell];
    rewrite length_insert, Hf; repeat split; try lia; try congruence.
  intros _. left. apply Nat.eqb_neq in E. rewrite Hbs in E. lia.
Qed.

Lemma reachable_inv g : reachable g -> game_inv g.
Proof.
  induction 1 as [n k | g i g' r _ IH Hp].
  - apply game_inv_new.
  - exact (game_inv_step _ _ _ _ IH Hp).
Qed.

Lemma insert_desc_head a l :
  sorted_desc l -> sorted_desc (insert_desc a l) /\
  (forall h, head l = Some h -> head (insert_desc a l) = Some (Nat.max a h)) /\
  (head l = None -> head (insert_desc a l) = Some a).
Proof.
  induction l as [|h t IH]; simpl; intros Hs.
  - split; [exact I | split; [discriminate | reflexivity]].
  - destruct (h <? a) eqn:E.
    + apply Nat.ltb_lt in E. simpl. split; [split; [lia | exact Hs] |].
      split; [intros h' [= <-]; f_equal; lia | discriminate].
    + apply Nat.ltb_ge in E. split; [| split; [intros h' [= <-]; simpl; f_equal; lia | discriminate]].
      destruct t as [|h2 t].
      * simpl. split; [lia | exact I].
      * destruct Hs as [Hh Hs].
        destruct (IH Hs) as (Hs' & Hhd & _).
        specialize (Hhd h2 eq_refl).
        destruct (insert_desc a (h2 :: t)) as [|x r] eqn:Ei; [discriminate Hhd|].
        simpl in Hhd |- *. injection Hhd as ->. split; [lia | exact Hs'].
Qed.

Lemma sort_desc_sorted l : sorted_desc (sort_desc l).
Proof.
  induction l as [|h t IH]; simpl; [exact I|]. apply insert_desc_head, IH.
Qed.

Lemma sort_desc_head l : l <> [] -> head (sort_desc l) = Some (list_max l).
Proof.
  induction l as [|h t IH]; intros Hne; [congruence|].
  change (sort_desc (h :: t)) with (insert_desc h (sort_desc t)).
  destruct (insert_desc_head h (sort_desc t) (sort_desc_sorted t)) as (_ & Hs & _).
  destruct t as [|h2 t].
  - simpl. f_equal. lia.
  - rewrite (Hs _ (IH ltac:(discriminate))). reflexivity.
Qed.

Lemma sort_desc_length l : length (sort_desc l) = length l.
Proof.
  assert (Hi : forall a m, length (insert_desc a m) = S (length m)).
  { intros a m. induction m as [|h m IH]; simpl; [reflexivity|].
    destruct (h <? a); simpl; lia. }
  induction l as [|h t IH]; simpl; [reflexivity|]. rewrite Hi, IH. reflexivity.
Qed.

Lemma drop_small_suffix l : exists p, l = p ++ drop_small l.
Proof.
  induction l as [|h t IH]; simpl; [exists []; reflexivity|].
  destruct (h <? 2).
  - destruct IH as [p Hp]. exists (h :: p). simpl. rewrite <- Hp. reflexivity.
  - exists []. reflexivity.
Qed.

Lemma drop_small_head l h t : drop_small l = h :: t -> 2 <= h.
Proof.
  induction l as [|a l IH]; simpl; [discriminate|].
  destruct (a <? 2) eqn:E; [exact IH|]. intros [= -> _]. apply Nat.ltb_ge in E. exact E.
Qed.

Lemma drop_small_nonempty l x : In x l -> 2 <= x -> drop_small l <> [].
Proof.
  induction l as [|a l IH]; simpl; [tauto|].
  intros Hin Hx. destruct (a <? 2) eqn:E; [|discriminate].
  apply Nat.ltb_lt in E. destruct Hin as [->|Hin]; [lia|]. exact (IH Hin Hx).
Qed.

Lemma pop_small_prefix s : exists r, s = pop_small s ++ r.
Proof.
  unfold pop_small. destruct (drop_small_suffix (rev s)) as [p Hp].
  exists (rev p). rewrite <- rev_app_distr, <- Hp, rev_involutive. reflexivity.
Qed.

Lemma sorted_desc_app_l p q : sorted_desc (p ++ q) -> sorted_desc p.
Proof.
  induction p as [|a p IH]; simpl; [auto|].
  destruct p as [|b p]; simpl; [auto|]. intros [Hab Hs]. split; [exact Hab | exact (IH Hs)].
Qed.

Lemma sorted_desc_last p x : sorted_desc (p ++ [x]) -> Forall (fun y => x <= y) (p ++ [x]).
Proof.
  induction p as [|a p IH]; simpl; intros Hs.
  - constructor; [lia | constructor].
  - destruct (p ++ [x]) as [|b q] eqn:Ep; [destruct p; discriminate|].
    destruct Hs as [Hab Hs]. specialize (IH Hs).
    constructor; [|exact IH]. inversion IH; subst. lia.
Qed.

Lemma pop_small_shape s :
  sorted_desc s ->
  sorted_desc (pop_small s) /\ Forall (fun y => 2 <= y) (pop_small s) /\
  length (pop_small s) <= length s.
Proof.
  intros Hs. destruct (pop_small_prefix s) as [r Hr].
  assert (Hsp : sorted_desc (pop_small s)) by (apply (sorted_desc_app_l _ r); rewrite <- Hr; exact Hs).
  assert (Hlen : length (pop_small s) <= length s) by (rewrite Hr at 2; rewrite length_app; lia).
  split; [exact Hsp|]. split; [|exact Hlen].
  unfold pop_small in *. destruct (drop_small (rev s)) as [|x d] eqn:Ed; [constructor|].
  pose proof (drop_small_head _ _ _ Ed) as Hx. simpl in *.
  eapply Forall_impl; [apply sorted_desc_last, Hsp|]. intros y Hy. simpl in Hy. lia.
Qed.

Lemma count_consecutive_cells_shape b i t :
  let l := count_consecutive_cells b i t in
  sorted_desc l /\ Forall (fun y => 2 <= y) l /\ length l <= 4.
Proof.
  unfold count_consecutive_cells. destruct (get_cell b i) as [c|]; [|repeat constructor].
  destruct (decide (c = cell_of_turn t)); [|repeat constructor].
  destruct (pop_small_shape (sort_desc (axis_counts b i c)) (sort_desc_sorted _)) as (H1 & H2 & H3).
  rewrite sort_desc_length in H3. simpl in H3. auto.
Qed.

(** The first entry of the run list is the longest of the four axis
    runs through the cell, and the list is non-empty exactly when that
    longest run reaches 2. *)
Lemma count_consecutive_cells_head b i t :
  get_cell b i = Some (cell_of_turn t) ->
  let m := list_max (axis_counts b i (cell_of_turn t)) in
  (2 <= m -> head (count_consecutive_cells b i t) = Some m) /\
  (m < 2 -> count_consecutive_cells b i t = []).
Proof.
  intros Hc m. subst m. unfold count_consecutive_cells. rewrite Hc, decide_True by reflexivity.
  set (ax := axis_counts b i (cell_of_turn t)).
  assert (Hne : ax <> []) by (unfold ax, axis_counts; discriminate).
  clearbody ax.
  pose proof (sort_desc_head ax Hne) as Hh.
  destruct (pop_small_prefix (sort_desc ax)) as [r Hr].
  split.
  - intros Hm. unfold pop_small in *.
    destruct (drop_small (rev (sort_desc ax))) as [|x d] eqn:Ed.
    + exfalso. destruct (sort_desc ax) as [|h s] eqn:Es; [discriminate|].
      simpl in Hh. injection Hh as Hh.
      apply (drop_small_nonempty (rev (h :: s)) h); [|lia|exact Ed].
      apply in_rev. rewrite rev_involutive. left. reflexivity.
    + destruct (rev (x :: d)) as [|y q] eqn:Eq; [apply (f_equal (@length _)) in Eq; simpl in Eq; rewrite length_app in Eq; simpl in Eq; lia|].
      rewrite Hr in Hh. exact Hh.
  - intros Hm. pose proof (pop_small_shape _ (sort_desc_sorted ax)) as (_ & Hall & _).
    destruct (pop_small (sort_desc ax)) as [|y q] eqn:Ep; [reflexivity|].
    exfalso. rewrite Hr in Hh. simpl in Hh. injection Hh as ->.
    inversion Hall; subst. lia.
Qed.

(** ** Claims about [place_stone] *)

(** C1: on an in-progress game, a successful [place_stone] declares
    [Win] of the mover exactly when the first (largest) entry of the run
    list through the placed stone equals the win-length threshold; no
    other player can be declared winner, and a longer run declares no win. *)
Theorem place_stone_win_iff_exact g index g' r :
  g_game_result g = None ->
  place_stone g index = (g', inl r) ->
  (g_game_result g' = Some (Win (g_turn g)) <->
   head (r_consecutive_stones r) = Some (g_max_consecutive_stones g)) /\
  (forall t, g_game_result g' = Some (Win t) -> t = g_turn g) /\
  (forall n, head (r_consecutive_stones r) = Some n -> g_max_consecutive_stones g < n ->
   g_game_result g' <> Some (Win (g_turn g))).
Proof.
  intros Hnone Hp. destruct (place_stone_ok _ _ _ _ Hp) as (_ & -> & ->).
  cbn [g_game_result r_consecutive_stones g_turn g_max_consecutive_stones].
  destruct (bool_decide _) eqn:Hw; [apply bool_decide_eq_true in Hw | apply bool_decide_eq_false in Hw].
  - split; [split; intros _; [exact Hw | reflexivity]|].
    split; [congruence|]. intros n Hn Hlt. rewrite Hw in Hn. injection Hn. lia.
  - destruct (Nat.eqb _ _); rewrite ?Hnone;
      (split; [split; [discriminate | tauto] | split; [discriminate | intros; discriminate]]).
Qed.

Lemma place_stone_win_iff_exact_witness :
  exists g' r, g_game_result (Game_new 3 3) = None /\
    place_stone (Game_new 3 3) 4 = (g', inl r) /\
    (g_game_result g' = Some (Win (g_turn (Game_new 3 3))) <->
     head (r_consecutive_stones r) = Some (g_max_consecutive_stones (Game_new 3 3))) /\
    (forall t, g_game_result g' = Some (Win t) -> t = g_turn (Game_new 3 3)) /\
    (forall n, head (r_consecutive_stones r) = Some n ->
     g_max_consecutive_stones (Game_new 3 3) < n ->
     g_game_result g' <> Some (Win (g_turn (Game_new 3 3)))).
Proof.
  do 2 eexists. split; [reflexivity|]. split; [vm_compute; reflexivity|].
  apply (place_stone_win_iff_exact (Game_new 3 3) 4); [reflexivity | vm_compute; reflexivity].
Defined.

(** C7: on a reachable game, [place_stone] fails with [InvalidIndex]
    (carrying [size * size]) exactly when the index is at least
    [size * size], fails with [StoneAlreadyPlaced] carrying the cell's
    color exactly when the index is in range and the cell is occupied,
    and any failure leaves the whole game unchanged. *)
Theorem place_stone_errors g index :
  reachable g ->
  let n := g_board_size g in
  (forall g' e, place_stone g index = (g', inr e) -> g' = g) /\
  ((exists g', place_stone g index = (g', inr (InvalidIndex index (n * n)))) <-> n * n <= index) /\
  (forall c, (exists g', place_stone g index = (g', inr (StoneAlreadyPlaced index c))) <->
             index < n * n /\ get_cell (g_board g) index = Some c /\ c <> Empty).
Proof.
  intros Hr n. destruct (reachable_inv _ Hr) as (Hbs & Hlen & _).
  split; [exact (place_stone_err g index)|].
  unfold n, place_stone. rewrite Hbs.
  destruct (get_cell (g_board g) index) as [c0|] eqn:E.
  - pose proof (get_cell_lt _ _ _ E) as Hi. rewrite Hlen in Hi.
    split.
    + split; [intros [g' Hg]; destruct c0; simpl in Hg; discriminate | lia].
    + intros c. destruct c0; simpl.
      * split; [intros [g' Hg]; discriminate | intros (_ & [=] & Hne); congruence].
      * split; [intros [g' [= _ <-]]; split; [lia | split; [reflexivity | discriminate]]
               | intros (_ & [= <-] & _); eexists; reflexivity].
      * split; [intros [g' [= _ <-]]; split; [lia | split; [reflexivity | discriminate]]
               | intros (_ & [= <-] & _); eexists; reflexivity].
  - unfold get_cell in E. apply lookup_ge_None in E. rewrite Hlen in E.
    split.
    + split; [lia | intros _; eexists; reflexivity].
    + intros c. split; [intros [g' Hg]; discriminate | lia].
Qed.

Lemma place_stone_errors_witness :
  reachable (Game_new 15 5) /\
  (let n := g_board_size (Game_new 15 5) in
   (forall g' e, place_stone (Game_new 15 5) 7 = (g', inr e) -> g' = Game_new 15 5) /\
   ((exists g', place_stone (Game_new 15 5) 7 = (g', inr (InvalidIndex 7 (n * n)))) <->
    n * n <= 7) /\
   (forall c, (exists g', place_stone (Game_new 15 5) 7 = (g', inr (StoneAlreadyPlaced 7 c))) <->
              7 < n * n /\ get_cell (g_board (Game_new 15 5)) 7 = Some c /\ c <> Empty)).
Proof.
  split; [apply reach_new|]. apply (place_stone_errors (Game_new 15 5) 7). apply reach_new.
Defined.

(** What a successful [place_stone] returns, field by field: the pre-move
    board, the mover as [turn_was], a run list that is sorted descending
    with entries of at least 2 and at most 4 entries, and as [stone] the
    color of the player whose turn comes next. *)
Lemma place_stone_result_fields g index g' r :
  place_stone g index = (g', inl r) ->
  r_index r = index /\ r_board_was r = g_board g /\ r_turn_was r = g_turn g /\
  r_stone r = cell_of_turn (next (g_turn g)) /\
  get_cell (g_board g') index = Some (cell_of_turn (g_turn g)) /\
  sorted_desc (r_consecutive_stones r) /\ Forall (fun y => 2 <= y) (r_consecutive_stones r) /\
  length (r_consecutive_stones r) <= 4.
Proof.
  intros Hp. destruct (place_stone_ok _ _ _ _ Hp) as (Hget & -> & ->). cbn.
  pose proof (get_cell_lt _ _ _ Hget) as Hi.
  destruct (count_consecutive_cells_shape
              (set_cell (g_board g) index (cell_of_turn (g_turn g))) index (g_turn g))
    as (H1 & H2 & H3).
  repeat split; auto. unfold get_cell, set_cell. cbn. apply list_lookup_insert_eq. exact Hi.
Qed.

(** ** Legal moves of in-progress games *)

Lemma legal_moves_nonempty b : filled (cells b) < length (cells b) -> legal_moves b <> [].
Proof. intros H Hn. apply legal_from_nil in Hn. lia. Qed.

(** C10 (as amended): for every reachable game of size at least 1 that
    is still in progress, fewer than [size * size] moves have been
    played, the legal-move list is non-empty, and the uniform random
    choice (of [sample_replay] and of [RandomPlayer]) finds a move. *)
Theorem in_progress_has_legal_moves g :
  reachable g -> 1 <= g_board_size g -> g_game_result g = None ->
  g_turn_count g < g_board_size g * g_board_size g /\
  legal_moves (g_board g) <> [] /\
  (forall k, choose (legal_moves (g_board g)) k <> None) /\
  (forall forward k, generate_move forward Random g k <> Panic).
Proof.
  intros Hr Hn Hnone. destruct (reachable_inv _ Hr) as (_ & Hlen & Hfill & Hres).
  destruct (Hres Hnone) as [Hlt|]; [|lia].
  assert (Hne : legal_moves (g_board g) <> []) by (apply legal_moves_nonempty; lia).
  assert (Hch : forall k, choose (legal_moves (g_board g)) k <> None).
  { intros k. unfold choose. intros Hl. apply lookup_ge_None in Hl.
    destruct (legal_moves (g_board g)) as [|m l]; [congruence|].
    pose proof (Nat.mod_upper_bound k (length (m :: l)) ltac:(discriminate)). lia. }
  repeat split; auto.
  intros forward k. simpl. specialize (Hch k).
  destruct (choose (legal_moves (g_board g)) k); [discriminate | congruence].
Qed.

Lemma in_progress_has_legal_moves_witness :
  reachable (Game_new 15 5) /\ 1 <= g_board_size (Game_new 15 5) /\
  g_game_result (Game_new 15 5) = None /\
  (g_turn_count (Game_new 15 5) < g_board_size (Game_new 15 5) * g_board_size (Game_new 15 5) /\
   legal_moves (g_board (Game_new 15 5)) <> [] /\
   (forall k, choose (legal_moves (g_board (Game_new 15 5))) k <> None) /\
   (forall forward k, generate_move forward Random (Game_new 15 5) k <> Panic)).
Proof.
  split; [apply reach_new|]. split; [simpl; lia|]. split; [reflexivity|].
  apply in_progress_has_legal_moves; [apply reach_new | simpl; lia | reflexivity].
Defined.

(** C10 as stated fails for [Game::new(0, _)]: the game is in progress,
    yet it has no legal move and the random player panics. *)
Lemma in_progress_empty_board_counterexample :
  reachable (Game_new 0 5) /\ g_game_result (Game_new 0 5) = None /\
  legal_moves (g_board (Game_new 0 5)) = [] /\
  generate_move (fun _ => []) Random (Game_new 0 5) 0 = Panic.
Proof. split; [apply reach_new|]. vm_compute. repeat split. Qed.

Lemma next_neq t t' : t <> t' -> next t = t'.
Proof. destruct t, t'; simpl; congruence. Qed.

Lemma place_unwrap_ok g i g' r : place_unwrap g i = Done (g', r) -> place_stone g i = (g', inl r).
Proof. unfold place_unwrap. destruct (place_stone g i) as [g1 [r1|e]]; congruence. Qed.

Lemma sample_prefix_turn forward g t o d gl tl :
  sample_prefix forward g t o d = Done (gl, tl) -> g_turn gl = tl.
Proof.
  unfold sample_prefix.
  destruct (if is_Some_dec (g_game_result g) then _ else _) as [g0 t0].
  destruct (decide (g_turn g0 <> t0)) as [Hne|Heq].
  - destruct (generate_move forward o g0 (d_pre d)) as [a|]; [|discriminate]. simpl.
    destruct (place_unwrap g0 a) as [[g1 r1]|] eqn:E; [|discriminate]. simpl.
    intros [= <- <-]. apply place_unwrap_ok in E.
    destruct (place_stone_ok _ _ _ _ E) as (_ & -> & _). simpl. apply next_neq, Hne.
  - intros [= <- <-]. destruct (g_turn g0), t0; try reflexivity; exfalso; apply Heq; discriminate.
Qed.

(** C8: when [sample_replay] emits a non-terminal step (it has "next"
    frames), the step is the learner's, its reward is the spec's reward
    (+1 for an own run of 3 to 5 from the move, else +1 if the
    opponent's color at the same index on the pre-move board would make
    a run of 4 or 5, else 0), and the real board keeps the learner's own
    stone at that index: the defensive probe does not touch it. *)
Theorem nonterminal_step_reward forward g t o d gl tl g' t' step :
  sample_prefix forward g t o d = Done (gl, tl) ->
  sample_replay forward g t o d = Done (g', t', step) ->
  rs_next_boards step <> None ->
  rs_turn step = tl /\
  rs_reward step = spec_nonterminal_reward (g_board gl) (rs_action step) tl /\
  get_cell (g_board g') (rs_action step) = Some (cell_of_turn tl).
Proof.
  intros Hpre Hs Hnext. pose proof (sample_prefix_turn _ _ _ _ _ _ _ Hpre) as Htl.
  unfold sample_replay in Hs. rewrite Hpre in Hs. simpl in Hs. unfold sample_from in Hs.
  destruct (if d_explore d then _ else _) as [a|]; [|discriminate]. simpl in Hs.
  destruct (place_unwrap gl a) as [[g1 r1]|] eqn:E1; [|discriminate]. simpl in Hs.
  destruct (is_Some_dec (r_game_result r1)).
  { injection Hs as <- <- <-. simpl in Hnext. congruence. }
  destruct (generate_move forward o g1 (d_opp d)) as [b|]; [|discriminate]. simpl in Hs.
  destruct (place_unwrap g1 b) as [[g2 r2]|] eqn:E2; [|discriminate]. simpl in Hs.
  destruct (is_Some_dec (r_game_result r2)).
  { injection Hs as <- <- <-. simpl in Hnext. congruence. }
  injection Hs as <- <- <-. simpl.
  apply place_unwrap_ok in E1, E2.
  destruct (place_stone_result_fields _ _ _ _ E1) as (Hi1 & Hb1 & Ht1 & _ & Hc1 & _).
  destruct (place_stone_ok _ _ _ _ E1) as (_ & Hg1 & ->).
  destruct (place_stone_ok _ _ _ _ E2) as (Hget2 & -> & _).
  split; [simpl; exact Htl|]. split.
  - unfold compute_nonterminal_reward, spec_nonterminal_reward.
    cbn [rs_reward rs_action r_consecutive_stones r_board_was r_index r_turn_was]. rewrite Htl.
    destruct (head (count_consecutive_cells (set_cell (g_board gl) a (cell_of_turn tl)) a tl))
      as [k|]; [destruct ((3 <=? k) && (k <=? 5))|]; try reflexivity;
    destruct (head (count_consecutive_cells (set_cell (g_board gl) a (cell_of_turn (next tl)))
                     a (next tl))) as [k'|]; try destruct ((4 <=? k') && (k' <=? 5)); reflexivity.
  - unfold get_cell, set_cell in *. simpl. rewrite list_lookup_insert_ne.
    + rewrite Htl in Hc1. exact Hc1.
    + intros ->. rewrite Hc1 in Hget2. destruct (g_turn gl); discriminate.
Qed.

Lemma nonterminal_step_reward_witness :
  exists gl tl g' t' step,
    sample_prefix (fun _ => []) (Game_new 2 5) TBlack Random (mkDraws true 0 true 0 0) = Done (gl, tl) /\
    sample_replay (fun _ => []) (Game_new 2 5) TBlack Random (mkDraws true 0 true 0 0) = Done (g', t', step) /\
    rs_next_boards step <> None /\
    (rs_turn step = tl /\
     rs_reward step = spec_nonterminal_reward (g_board gl) (rs_action step) tl /\
     get_cell (g_board g') (rs_action step) = Some (cell_of_turn tl)).
Proof.
  do 5 eexists. split; [reflexivity|]. split; [reflexivity|]. split; [vm_compute; discriminate|].
  eapply (nonterminal_step_reward (fun _ => []) (Game_new 2 5) TBlack Random (mkDraws true 0 true 0 0));
    [reflexivity | reflexivity | vm_compute; discriminate].
Defined.

(** C3: in the second call the learner plays 2 and the opponent's reply
    at 3 fills the board (a draw).  The emitted step carries the
    opponent's turn ([TWhite]) and the opponent's move (3), not the
    learner's turn and move. *)
Theorem opponent_terminal_step_records_opponent :
  get_cell (g_board replay_g1) 2 = Some Empty /\
  exists g' step,
    sample_replay (fun _ => []) replay_g1 TBlack Random replay_draws = Done (g', TBlack, step) /\
    get_cell (g_board g') 2 = Some Black /\ get_cell (g_board g') 3 = Some White /\
    rs_turn step = TWhite /\ rs_action step = 3 /\ rs_reward step = (-100)%Z /\
    rs_next_boards step = None /\ rs_game_result step = Some Draw.
Proof.
  split; [vm_compute; reflexivity|].
  do 2 eexists. split; [vm_compute; reflexivity|]. vm_compute. repeat split.
Qed.

Lemma not_in_of_existsb x l : existsb (Nat.eqb x) l = false -> ~ In x l.
Proof.
  intros H Hin. assert (existsb (Nat.eqb x) l = true) as Ht; [|congruence].
  apply existsb_exists. exists x. split; [exact Hin | apply Nat.eqb_refl].
Qed.



(** C4: after Black's stone at 0, White's agent move with the highest
    score at cell 1 (the first legal move) is 0: the position of the
    arg-max in the legal list, and cell 0 is occupied. *)
Theorem next_move_illegal_move :
  let g := fst (place_stone (Game_new 15 5) 0) in
  next_move scores_prefer_1 g = Done 0 /\ ~ In 0 (legal_moves (g_board g)).
Proof.
  split; [vm_compute; reflexivity|]. apply not_in_of_existsb. vm_compute. reflexivity.
Qed.

(** C2: a non-terminal transition of [Game::new(15, 5)] (learner Black
    plays 0, the random opponent 1).  Its "next" frames contain the
    position after the reply, where 0 is occupied; the TD target still
    selects action 0, because the legal moves are taken from the last
    "before" frame (the empty board). *)
Theorem td_best_action_occupied_cell :
  exists g' step,
    sample_replay (fun _ => []) (Game_new 15 5) TBlack Random replay_draws = Done (g', TBlack, step) /\
    rs_next_boards step = Some (generate_history_boards TBlack g') /\
    In (TBlack, g_board g') (generate_history_boards TBlack g') /\
    ~ In 0 (legal_moves (g_board g')) /\
    last (rs_boards step) = Some (TBlack, Board_new 15) /\
    td_best_action online_prefer_0 step = Done 0.
Proof.
  do 2 eexists. split; [vm_compute; reflexivity|].
  split; [vm_compute; reflexivity|].
  split; [vm_compute; right; right; left; reflexivity|].
  split; [apply not_in_of_existsb; vm_compute; reflexivity|].
  split; vm_compute; reflexivity.
Qed.

(** C9: the first move of [Game::new(15, 5)] places a black stone, yet
    the result's [stone] field is [White]: it is computed from the turn
    after the switch. *)
Theorem place_stone_stone_is_next_color :
  exists g' r, place_stone (Game_new 15 5) 0 = (g', inl r) /\
    r_turn_was r = TBlack /\ get_cell (g_board g') 0 = Some Black /\ r_stone r = White.
Proof. do 2 eexists. split; [vm_compute; reflexivity|]. vm_compute. repeat split. Qed.

(** C5: a number token above [usize::MAX] makes [number_to_index]'s
    [unwrap] panic (in every build profile). *)
Theorem parse_index_long_number_panics :
  parse_index (Board_new 15) (str "a99999999999999999999"%string) = Panic /\
  parse_index (Board_new 15) (str "99999999999999999999"%string) = Panic.
Proof. vm_compute. split; reflexivity. Qed.

(** C6: on a 27-wide board, column 26 is formatted "AB" (least
    significant letter first) but "ab" parses as column 1. *)
Theorem position_roundtrip_fails_wide_board :
  index_to_position (Board_new 27) 26 = Some (str "AB1"%string) /\
  parse_index (Board_new 27) (str "AB1"%string) = Done (Some 1).
Proof. vm_compute. split; reflexivity. Qed.

Lemma count_dir_fuel_indep b c dx dy :
  ((dx = 1 \/ dx = -1) \/ (dx = 0 /\ (dy = 1 \/ dy = -1)))%Z ->
  forall f1 f2 x y count,
    dir_measure (Z.of_nat (board_size b)) x y dx dy <= f1 ->
    dir_measure (Z.of_nat (board_size b)) x y dx dy <= f2 ->
    count_dir_fuel f1 b x y c dx dy count = count_dir_fuel f2 b x y c dx dy count.
Proof.
  intros Hd. set (n := Z.of_nat (board_size b)).
  induction f1 as [|f1 IH]; intros [|f2] x y count H1 H2; simpl; try reflexivity.
  - fold n. destruct ((0 <=? x)%Z && (x <? n)%Z && (0 <=? y)%Z && (y <? n)%Z) eqn:B; [|reflexivity].
    exfalso. repeat rewrite andb_true_iff in B. rewrite !Z.leb_le, !Z.ltb_lt in B.
    unfold dir_measure in H1. destruct Hd as [[-> | ->] | [-> [-> | ->]]]; simpl in H1; lia.
  - fold n. destruct ((0 <=? x)%Z && (x <? n)%Z && (0 <=? y)%Z && (y <? n)%Z) eqn:B; [|reflexivity].
    exfalso. repeat rewrite andb_true_iff in B. rewrite !Z.leb_le, !Z.ltb_lt in B.
    unfold dir_measure in H2. destruct Hd as [[-> | ->] | [-> [-> | ->]]]; simpl in H2; lia.
  - fold n. destruct ((0 <=? x)%Z && (x <? n)%Z && (0 <=? y)%Z && (y <? n)%Z) eqn:B; [|reflexivity].
    destruct (decide _); [|reflexivity].
    repeat rewrite andb_true_iff in B. rewrite !Z.leb_le, !Z.ltb_lt in B.
    apply IH; unfold dir_measure in *;
      destruct Hd as [[-> | ->] | [-> [-> | ->]]]; simpl in *; lia.
Qed.

(** The fuel [board_size + 1] of [count_consecutive_cells_in_direction]
    is as good as any larger fuel for every start the code uses
    (one step off the stone, so within [-1 .. board_size]). *)
Lemma count_dir_fuel_enough b x y c dx dy f :
  ((dx = 1 \/ dx = -1) \/ (dx = 0 /\ (dy = 1 \/ dy = -1)))%Z ->
  (-1 <= x <= Z.of_nat (board_size b))%Z -> (-1 <= y <= Z.of_nat (board_size b))%Z ->
  S (board_size b) <= f ->
  count_dir_fuel f b x y c dx dy 0 = count_consecutive_cells_in_direction b x y c dx dy.
Proof.
  intros Hd Hx Hy Hf. unfold count_consecutive_cells_in_direction.
  apply count_dir_fuel_indep; [exact Hd | |];
    unfold dir_measure; destruct Hd as [[-> | ->] | [-> [-> | ->]]]; simpl; lia.
Qed.

Lemma roundtrip_ok_upto_26 :
  forallb (fun n => forallb (roundtrip_ok n) (seq 0 (n * n))) (seq 1 26) = true.
Proof. vm_compute. reflexivity. Qed.

(** On boards of width 1 to 26 the column is a single letter and the
    round trip [parse_index (index_to_position i) = i] holds for every
    index: the failure above needs a board wider than 26. *)
Lemma position_roundtrip_narrow_board b i :
  1 <= board_size b <= 26 -> i < board_size b * board_size b ->
  exists s, index_to_position b i = Some s /\ parse_index b s = Done (Some i).
Proof.
  intros Hn Hi. pose proof roundtrip_ok_upto_26 as H.
  rewrite forallb_forall in H. specialize (H (board_size b) ltac:(apply in_seq; lia)).
  rewrite forallb_forall in H. specialize (H i ltac:(apply in_seq; lia)).
  unfold roundtrip_ok in H.
  change (index_to_position (mkBoard (board_size b) []) i) with (index_to_position b i) in H.
  destruct (index_to_position b i) as [s|]; [|discriminate]. exists s. split; [reflexivity|].
  change (parse_index (mkBoard (board_size b) []) s) with (parse_index b s) in H.
  destruct (parse_index b s) as [[j|]|]; try discriminate.
  apply Nat.eqb_eq in H. subst. reflexivity.
Qed.

Lemma max_by_from_in best l : best = max_by_from best l \/ In (max_by_from best l) l.
Proof.
  revert best. induction l as [|p l IH]; intros best; simpl; [left; reflexivity|].
  destruct (Qlt_le_dec (snd p) (snd best)).
  - destruct (IH best) as [H|H]; [left | right; right]; exact H.
  - destruct (IH p) as [H|H]; right; [left; exact H | right; exact H].
Qed.

(** The action that [compute_td_target] selects is always a legal move
    of the last "before" frame, whatever the "next" frames are. *)
Lemma td_best_action_legal_before online step a :
  td_best_action online step = Done a ->
  exists tb, last (rs_boards step) = Some tb /\ In a (legal_moves (snd tb)).
Proof.
  unfold td_best_action. destruct (last (rs_boards step)) as [tb|]; [|discriminate]. simpl.
  set (pairs := map _ (legal_moves (snd tb))).
  assert (Hp : forall q, In q pairs -> In (fst q) (legal_moves (snd tb))).
  { intros q Hq. unfold pairs in Hq. apply in_map_iff in Hq. destruct Hq as (x & <- & Hx). exact Hx. }
  clearbody pairs. destruct pairs as [|p l]; simpl; [discriminate|]. intros [= <-].
  exists tb. split; [reflexivity|]. apply Hp.
  destruct (max_by_from_in p l) as [H|H]; [rewrite <- H; left; reflexivity | right; exact H].
Qed.

(** ** Further properties of the board and the game *)

Lemma legal_from_in k cs i : In i (legal_from k cs) <-> k <= i /\ cs !! (i - k) = Some Empty.
Proof.
  revert k. induction cs as [|c cs IH]; intros k; simpl.
  - split; [tauto | intros [_ H]; discriminate].
  - destruct (is_empty c) eqn:E; [simpl|]; rewrite IH.
    + split.
      * intros [->|[H1 H2]]; [ split; [lia|]; rewrite Nat.sub_diag; destruct c; try discriminate; reflexivity |].
        split; [lia|]. replace (i - k) with (S (i - S k)) by lia. exact H2.
      * intros [H1 H2]. destruct (decide (i = k)) as [->|Hne]; [left; reflexivity|right].
        split; [lia|]. replace (i - k) with (S (i - S k)) in H2 by lia. exact H2.
    + split.
      * intros [H1 H2]. split; [lia|]. replace (i - k) with (S (i - S k)) by lia. exact H2.
      * intros [H1 H2]. destruct (decide (i = k)) as [->|Hne].
        { rewrite Nat.sub_diag in H2. injection H2 as ->. discriminate. }
        split; [lia|]. replace (i - k) with (S (i - S k)) in H2 by lia. exact H2.
Qed.

Lemma illegal_from_in k cs i :
  In i (illegal_from k cs) <-> k <= i /\ exists c, cs !! (i - k) = Some c /\ c <> Empty.
Proof.
  revert k. induction cs as [|c cs IH]; intros k; simpl.
  - split; [tauto | intros [_ [c [H _]]]; discriminate].
  - destruct (is_empty c) eqn:E; [|simpl]; rewrite IH.
    + split.
      * intros [H1 H2]. split; [lia|]. replace (i - k) with (S (i - S k)) by lia. exact H2.
      * intros [H1 [c' [H2 Hc]]]. destruct (decide (i = k)) as [->|Hne].
        { rewrite Nat.sub_diag in H2. injection H2 as <-. destruct c; discriminate || congruence. }
        split; [lia|]. exists c'. replace (i - k) with (S (i - S k)) in H2 by lia. auto.
    + split.
      * intros [->|[H1 H2]].
        { split; [lia|]. rewrite Nat.sub_diag. exists c. split; [reflexivity|]. intros ->. discriminate. }
        split; [lia|]. replace (i - k) with (S (i - S k)) by lia. exact H2.
      * intros [H1 H2]. destruct (decide (i = k)) as [->|Hne]; [left; reflexivity|right].
        split; [lia|]. replace (i - k) with (S (i - S k)) in H2 by lia. exact H2.
Qed.

Lemma legal_from_sorted k cs : StronglySorted lt (legal_from k cs) /\ Forall (fun i => k <= i) (legal_from k cs).
Proof.
  revert k. induction cs as [|c cs IH]; intros k; simpl; [split; constructor|].
  destruct (IH (S k)) as [Hs Hf]. destruct (is_empty c).
  - split; [constructor; [exact Hs|] | constructor; [lia|]];
      (eapply Forall_impl; [exact Hf | simpl; intros; lia]).
  - split; [exact Hs|]. eapply Forall_impl; [exact Hf | simpl; intros; lia].
Qed.

Lemma illegal_from_sorted k cs :
  StronglySorted lt (illegal_from k cs) /\ Forall (fun i => k <= i) (illegal_from k cs).
Proof.
  revert k. induction cs as [|c cs IH]; intros k; simpl; [split; constructor|].
  destruct (IH (S k)) as [Hs Hf]. destruct (is_empty c).
  - split; [exact Hs|]. eapply Forall_impl; [exact Hf | simpl; intros; lia].
  - split; [constructor; [exact Hs|] | constructor; [lia|]];
      (eapply Forall_impl; [exact Hf | simpl; intros; lia]).
Qed.

Lemma legal_illegal_length k cs : length (legal_from k cs) + length (illegal_from k cs) = length cs.
Proof.
  revert k. induction cs as [|c cs IH]; intros k; simpl; [reflexivity|].
  destruct (is_empty c); simpl; rewrite <- (IH (S k)); lia.
Qed.

Lemma filled_lt_of_empty cs i : cs !! i = Some Empty -> filled cs < length cs.
Proof.
  intros H. pose proof (filled_insert_empty cs i Black H ltac:(discriminate)) as E.
  pose proof (filled_le (<[i:=Black]> cs)) as Hle. rewrite length_insert in Hle. lia.
Qed.

Lemma legal_from_full k cs : filled cs = length cs -> legal_from k cs = [].
Proof.
  unfold filled. revert k. induction cs as [|c cs IH]; intros k; simpl; [reflexivity|].
  destruct (is_empty c) eqn:E; simpl.
  - intros H. pose proof (filled_le cs) as Hle. unfold filled in Hle. lia.
  - intros H. apply IH. lia.
Qed.

(** Bounds of one directional walk: it counts at most the cells left
    before it leaves the board. *)
Lemma count_dir_fuel_le b c dx dy :
  ((dx = 1 \/ dx = -1) \/ (dx = 0 /\ (dy = 1 \/ dy = -1)))%Z ->
  forall f x y count,
    count_dir_fuel f b x y c dx dy count <= count + dir_measure (Z.of_nat (board_size b)) x y dx dy.
Proof.
  intros Hd. set (n := Z.of_nat (board_size b)).
  induction f as [|f IH]; intros x y count; simpl; [lia|].
  fold n. destruct ((0 <=? x)%Z && (x <? n)%Z && (0 <=? y)%Z && (y <? n)%Z) eqn:B; [|lia].
  destruct (decide _); [|lia].
  repeat rewrite andb_true_iff in B. rewrite !Z.leb_le, !Z.ltb_lt in B.
  specialize (IH (x + dx)%Z (y + dy)%Z (S count)).
  unfold dir_measure in *. destruct Hd as [[-> | ->] | [-> [-> | ->]]]; simpl in *; lia.
Qed.

Lemma axis_counts_le b index c :
  length (cells b) = board_size b * board_size b -> index < length (cells b) ->
  Forall (fun m => m <= board_size b) (axis_counts b index c).
Proof.
  intros Hlen Hi. rewrite Hlen in Hi.
  assert (Hn : 0 < board_size b) by (destruct (board_size b); simpl in Hi; lia).
  set (n := Z.of_nat (board_size b)).
  assert (Hx : (0 <= Z.of_nat index mod n < n)%Z) by (apply Z.mod_pos_bound; lia).
  assert (Hy : (0 <= Z.of_nat index / n < n)%Z).
  { split; [apply Z.div_pos; lia|]. apply Z.div_lt_upper_bound; [lia|]. unfold n. nia. }
  unfold axis_counts. fold n.
  set (x := (Z.of_nat index mod n)%Z) in *. set (y := (Z.of_nat index / n)%Z) in *.
  unfold count_consecutive_cells_in_direction.
  pose proof (count_dir_fuel_le b c 1 0 ltac:(lia) (S (board_size b)) (x + 1) y 0) as H1.
  pose proof (count_dir_fuel_le b c (-1) 0 ltac:(lia) (S (board_size b)) (x - 1) y 0) as H2.
  pose proof (count_dir_fuel_le b c 0 1 ltac:(lia) (S (board_size b)) x (y + 1) 0) as H3.
  pose proof (count_dir_fuel_le b c 0 (-1) ltac:(lia) (S (board_size b)) x (y - 1) 0) as H4.
  pose proof (count_dir_fuel_le b c 1 (-1) ltac:(lia) (S (board_size b)) (x + 1) (y - 1) 0) as H5.
  pose proof (count_dir_fuel_le b c (-1) 1 ltac:(lia) (S (board_size b)) (x - 1) (y + 1) 0) as H6.
  pose proof (count_dir_fuel_le b c 1 1 ltac:(lia) (S (board_size b)) (x + 1) (y + 1) 0) as H7.
  pose proof (count_dir_fuel_le b c (-1) (-1) ltac:(lia) (S (board_size b)) (x - 1) (y - 1) 0) as H8.
  fold n in H1, H2, H3, H4, H5, H6, H7, H8.
  cbv [dir_measure Z.eqb Pos.eqb] in H1, H2, H3, H4, H5, H6, H7, H8.
  repeat constructor; lia.
Qed.

Lemma in_insert_desc a l x : In x (insert_desc a l) -> x = a \/ In x l.
Proof.
  induction l as [|h t IH]; simpl; [intros [->|[]]; left; reflexivity|].
  destruct (h <? a); simpl; [intros [->|H]; [left; reflexivity | right; exact H]|].
  intros [->|H]; [right; left; reflexivity|]. destruct (IH H); tauto.
Qed.

Lemma in_sort_desc l x : In x (sort_desc l) -> In x l.
Proof.
  induction l as [|h t IH]; simpl; [tauto|].
  intros H. destruct (in_insert_desc _ _ _ H) as [->|H']; [left; reflexivity | right; exact (IH H')].
Qed.

Lemma in_count_consecutive_cells b i t m :
  In m (count_consecutive_cells b i t) ->
  i < length (cells b) /\ In m (axis_counts b i (cell_of_turn t)).
Proof.
  unfold count_consecutive_cells. destruct (get_cell b i) as [c|] eqn:E; [|simpl; tauto].
  destruct (decide (c = cell_of_turn t)) as [->|]; [|simpl; tauto].
  intros H. split; [exact (get_cell_lt _ _ _ E)|].
  destruct (pop_small_prefix (sort_desc (axis_counts b i (cell_of_turn t)))) as [r Hr].
  apply in_sort_desc. rewrite Hr. apply in_or_app. left. exact H.
Qed.

(** The run lengths of a board whose cell list has [size * size] cells. *)
Lemma count_consecutive_cells_le b i t :
  length (cells b) = board_size b * board_size b ->
  Forall (fun m => m <= board_size b) (count_consecutive_cells b i t).
Proof.
  intros Hlen. apply List.Forall_forall. intros m Hm.
  destruct (in_count_consecutive_cells _ _ _ _ Hm) as [Hi Hax].
  pose proof (axis_counts_le b i (cell_of_turn t) Hlen Hi) as Hf.
  rewrite List.Forall_forall in Hf. exact (Hf m Hax).
Qed.


Lemma turn_at_S j : turn_at (S j) = next (turn_at j).
Proof. unfold turn_at. rewrite Nat.even_succ, <- Nat.negb_even. destruct (Nat.even j); reflexivity. Qed.

(** History, turn and draw invariant of reachable games. *)
Lemma reachable_history g :
  reachable g ->
  g_turn g = turn_at (g_turn_count g) /\
  length (g_history g) = S (g_turn_count g) /\
  last (g_history g) = Some (g_turn g, g_board g) /\
  (forall j tb, g_history g !! j = Some tb ->
     fst tb = turn_at j /\ filled (cells (snd tb)) = j /\ board_size (snd tb) = g_board_size g) /\
  (g_game_result g = Some Draw -> g_turn_count g = g_board_size g * g_board_size g).
Proof.
  induction 1 as [n k | g i g' r Hr IH Hp].
  - unfold Game_new, Board_new; simpl. split; [reflexivity|]. split; [reflexivity|].
    split; [reflexivity|]. split; [|discriminate].
    intros [|j] tb; simpl; [intros [= <-]; simpl; rewrite filled_repeat_empty; auto|].
    rewrite lookup_nil. discriminate.
  - destruct IH as (Ht & Hl & Hlast & Hh & Hd).
    destruct (reachable_inv _ Hr) as (Hbs & Hlen & Hfill & _).
    destruct (place_stone_ok _ _ _ _ Hp) as (Hget & -> & _).
    cbn [g_turn g_turn_count g_history g_board g_game_result g_board_size].
    assert (Hf : filled (<[i:=cell_of_turn (g_turn g)]> (cells (g_board g)))
                 = S (filled (cells (g_board g)))).
    { apply filled_insert_empty; [exact Hget | destruct (g_turn g); discriminate]. }
    split; [rewrite turn_at_S, Ht; reflexivity|].
    split; [rewrite length_app, Hl; simpl; lia|].
    split; [apply last_snoc|]. split.
    + intros j tb Hj. apply lookup_app_Some in Hj. destruct Hj as [Hj | [Hge Hj]].
      * apply Hh, Hj.
      * rewrite Hl in Hge, Hj. destruct (j - S (g_turn_count g)) as [|m] eqn:Em; [|simpl in Hj; discriminate].
        simpl in Hj. injection Hj as <-. simpl.
        assert (j = S (g_turn_count g)) as -> by lia.
        split; [rewrite turn_at_S, Ht; reflexivity|]. split; [rewrite Hf, Hfill; reflexivity|]. exact Hbs.
    + pose proof (filled_lt_of_empty _ _ Hget) as Hlt. rewrite Hlen, Hfill in Hlt. rewrite Hbs.
      destruct (bool_decide _); [discriminate|].
      destruct (S (g_turn_count g) =? g_board_size g * g_board_size g) eqn:E.
      * intros _. apply Nat.eqb_eq in E. exact E.
      * intros HD. specialize (Hd HD). lia.
Qed.

Lemma generate_history_boards_shape player g :
  length (generate_history_boards player g) = 4 /\
  Forall (fun tb => fst tb = player) (generate_history_boards player g).
Proof.
  unfold generate_history_boards.
  set (found := take 4 _).
  assert (Hf : length found <= 4) by (unfold found; rewrite length_take; lia).
  assert (Hfa : Forall (fun tb => fst tb = player) found).
  { unfold found. apply Forall_take. apply List.Forall_forall. intros x Hx.
    apply in_map_iff in Hx. destruct Hx as (y & <- & _). reflexivity. }
  clearbody found. split.
  - rewrite length_app, repeat_length. lia.
  - apply Forall_app. split; [|exact Hfa]. apply List.Forall_forall. intros x Hx.
    apply repeat_spec in Hx. subst. reflexivity.
Qed.

Lemma play_reachable g moves g' : reachable g -> play g moves = Some g' -> reachable g'.
Proof.
  revert g. induction moves as [|i ms IH]; intros g Hr; simpl; [congruence|].
  destruct (place_stone g i) as [g1 [r|e]] eqn:E; [|discriminate].
  apply IH. exact (reach_step _ _ _ _ Hr E).
Qed.

Lemma played_reachable n k moves :
  play (Game_new n k) moves <> None -> reachable (played n k moves).
Proof.
  unfold played. destruct (play (Game_new n k) moves) as [g|] eqn:E; [|congruence].
  intros _. exact (play_reachable _ _ _ (reach_new n k) E).
Qed.

(** X1: [legal_moves] lists exactly the indices of the empty cells, in
    strictly increasing order. *)
Theorem legal_moves_empty_cells b :
  (forall i, In i (legal_moves b) <-> get_cell b i = Some Empty) /\
  StronglySorted lt (legal_moves b).
Proof.
  split; [|apply legal_from_sorted]. intros i. unfold legal_moves, get_cell.
  rewrite legal_from_in, Nat.sub_0_r. split; [tauto | split; [lia | exact H]].
Qed.

(** X2: [illegal_moves] lists exactly the indices of the occupied cells,
    in strictly increasing order; with [legal_moves] it partitions the
    cell indices. *)
Theorem illegal_moves_occupied_cells b :
  (forall i, In i (illegal_moves b) <-> exists c, get_cell b i = Some c /\ c <> Empty) /\
  StronglySorted lt (illegal_moves b) /\
  length (legal_moves b) + length (illegal_moves b) = length (cells b).
Proof.
  split; [|split; [apply illegal_from_sorted | apply legal_illegal_length]].
  intros i. unfold illegal_moves, get_cell. rewrite illegal_from_in, Nat.sub_0_r.
  split; [tauto | split; [lia | exact H]].
Qed.

(** X3: [count_consecutive_cells] returns at most four run lengths,
    sorted descending, each at least 2; it returns the empty list when
    the cell does not hold a stone of the given turn (an empty cell, the
    other color, or an index off the board). *)
Theorem count_consecutive_cells_spec b i t :
  let l := count_consecutive_cells b i t in
  sorted_desc l /\ Forall (fun y => 2 <= y) l /\ length l <= 4 /\
  (get_cell b i <> Some (cell_of_turn t) -> l = []).
Proof.
  intros l. destruct (count_consecutive_cells_shape b i t) as (H1 & H2 & H3).
  split; [exact H1|]. split; [exact H2|]. split; [exact H3|].
  intros Hne. unfold l, count_consecutive_cells.
  destruct (get_cell b i) as [c|]; [|reflexivity].
  destruct (decide (c = cell_of_turn t)) as [->|]; [congruence | reflexivity].
Qed.

(** X4: on a board with [size * size] cells, no run length reported by
    [count_consecutive_cells] exceeds the board width. *)
Theorem count_consecutive_cells_bounded b i t :
  length (cells b) = board_size b * board_size b ->
  Forall (fun m => m <= board_size b) (count_consecutive_cells b i t).
Proof. apply count_consecutive_cells_le. Qed.

Lemma count_consecutive_cells_bounded_witness :
  length (cells (Board_new 15)) = board_size (Board_new 15) * board_size (Board_new 15) /\
  Forall (fun m => m <= board_size (Board_new 15)) (count_consecutive_cells (Board_new 15) 0 TBlack).
Proof.
  split; [reflexivity|]. apply count_consecutive_cells_bounded. reflexivity.
Defined.

(** X5: a reachable game can only be won when the win length lies
    between 2 and the board width: with [max_consecutive_stones] below 2
    or above [board_size], every game ends in a draw or never ends. *)
Theorem win_needs_feasible_threshold g t :
  reachable g -> g_game_result g = Some (Win t) ->
  2 <= g_max_consecutive_stones g <= g_board_size g.
Proof.
  intros Hr. revert t. induction Hr as [n k | g i g' r Hr IH Hp]; intros t; [intros H; simpl in H; discriminate|].
  destruct (reachable_inv _ Hr) as (Hbs & Hlen & _).
  destruct (place_stone_ok _ _ _ _ Hp) as (Hget & -> & _).
  cbn [g_game_result g_max_consecutive_stones g_board_size].
  set (b' := set_cell (g_board g) i (cell_of_turn (g_turn g))).
  destruct (bool_decide _) eqn:Hw.
  - intros _. apply bool_decide_eq_true in Hw. fold b' in Hw.
    destruct (count_consecutive_cells b' i (g_turn g)) as [|m l] eqn:Ec; [simpl in Hw; discriminate|].
    simpl in Hw. injection Hw as <-.
    destruct (count_consecutive_cells_shape b' i (g_turn g)) as (_ & Hf & _).
    assert (Hl : length (cells b') = board_size b' * board_size b').
    { unfold b', set_cell. simpl. rewrite length_insert. rewrite Hlen, Hbs. reflexivity. }
    pose proof (count_consecutive_cells_le b' i (g_turn g) Hl) as Hle.
    rewrite Ec in Hf, Hle. inversion Hf; inversion Hle; subst.
    unfold b', set_cell in *; simpl in *. lia.
  - destruct (_ =? _); [discriminate|]. apply IH.
Qed.


Lemma win_needs_feasible_threshold_witness :
  reachable win_2x2 /\ g_game_result win_2x2 = Some (Win TBlack) /\
  2 <= g_max_consecutive_stones win_2x2 <= g_board_size win_2x2.
Proof.
  assert (Hr : reachable win_2x2) by (apply played_reachable; vm_compute; discriminate).
  assert (Hw : g_game_result win_2x2 = Some (Win TBlack)) by (vm_compute; reflexivity).
  split; [exact Hr|]. split; [exact Hw|]. exact (win_needs_feasible_threshold _ _ Hr Hw).
Defined.

(** X6: a successful [place_stone] changes exactly one cell of the
    board, the chosen empty one, which receives the mover's stone; the
    board size and every other cell are unchanged, so stones are never
    removed or recolored. *)
Theorem place_stone_changes_one_cell g i g' r :
  place_stone g i = (g', inl r) ->
  board_size (g_board g') = board_size (g_board g) /\
  length (cells (g_board g')) = length (cells (g_board g)) /\
  get_cell (g_board g) i = Some Empty /\
  get_cell (g_board g') i = Some (cell_of_turn (g_turn g)) /\
  (forall j, j <> i -> get_cell (g_board g') j = get_cell (g_board g) j).
Proof.
  intros Hp. destruct (place_stone_ok _ _ _ _ Hp) as (Hget & -> & _).
  pose proof (get_cell_lt _ _ _ Hget) as Hi.
  unfold get_cell, set_cell in *; cbn [g_board board_size cells].
  split; [reflexivity|]. split; [apply length_insert|]. split; [exact Hget|].
  split; [apply list_lookup_insert_eq; exact Hi|].
  intros j Hj. apply list_lookup_insert_ne. congruence.
Qed.

Lemma place_stone_changes_one_cell_witness :
  exists g' r, place_stone (Game_new 15 5) 0 = (g', inl r) /\
  (board_size (g_board g') = board_size (g_board (Game_new 15 5)) /\
   length (cells (g_board g')) = length (cells (g_board (Game_new 15 5))) /\
   get_cell (g_board (Game_new 15 5)) 0 = Some Empty /\
   get_cell (g_board g') 0 = Some (cell_of_turn (g_turn (Game_new 15 5))) /\
   (forall j, j <> 0 -> get_cell (g_board g') j = get_cell (g_board (Game_new 15 5)) j)).
Proof.
  do 2 eexists. split; [vm_compute; reflexivity|].
  eapply place_stone_changes_one_cell. vm_compute. reflexivity.
Defined.

(** X7: in every reachable game the number of stones on the board is
    the turn count, and Black is to move exactly when the turn count is
    even. *)
Theorem reachable_stones_and_turn g :
  reachable g ->
  filled (cells (g_board g)) = g_turn_count g /\
  g_turn g = (if Nat.even (g_turn_count g) then TBlack else TWhite).
Proof.
  intros Hr. destruct (reachable_inv _ Hr) as (_ & _ & Hf & _).
  destruct (reachable_history _ Hr) as (Ht & _). split; [exact Hf | exact Ht].
Qed.

Lemma reachable_stones_and_turn_witness :
  reachable (Game_new 15 5) /\
  filled (cells (g_board (Game_new 15 5))) = g_turn_count (Game_new 15 5) /\
  g_turn (Game_new 15 5) = (if Nat.even (g_turn_count (Game_new 15 5)) then TBlack else TWhite).
Proof. split; [apply reach_new|]. apply reachable_stones_and_turn, reach_new. Defined.

(** X8: the history of a reachable game has one entry per move plus the
    initial one; its last entry is the current turn and board, and its
    [j]-th board holds exactly [j] stones. *)
Theorem reachable_history_entries g :
  reachable g ->
  length (g_history g) = S (g_turn_count g) /\
  last (g_history g) = Some (g_turn g, g_board g) /\
  (forall j tb, g_history g !! j = Some tb -> filled (cells (snd tb)) = j).
Proof.
  intros Hr. destruct (reachable_history _ Hr) as (_ & Hl & Hlast & Hh & _).
  split; [exact Hl|]. split; [exact Hlast|]. intros j tb Hj. apply (Hh j tb Hj).
Qed.

Lemma reachable_history_entries_witness :
  reachable (Game_new 15 5) /\
  (length (g_history (Game_new 15 5)) = S (g_turn_count (Game_new 15 5)) /\
   last (g_history (Game_new 15 5)) = Some (g_turn (Game_new 15 5), g_board (Game_new 15 5)) /\
   (forall j tb, g_history (Game_new 15 5) !! j = Some tb -> filled (cells (snd tb)) = j)).
Proof. split; [apply reach_new|]. apply reachable_history_entries, reach_new. Defined.

(** X9: a reachable game that is drawn has a full board: no legal move
    is left and every further [place_stone] fails, leaving the game (and
    its [Draw]) unchanged. *)
Theorem draw_is_final g :
  reachable g -> g_game_result g = Some Draw ->
  g_turn_count g = g_board_size g * g_board_size g /\
  legal_moves (g_board g) = [] /\
  (forall i, exists e, place_stone g i = (g, inr e)).
Proof.
  intros Hr Hd. destruct (reachable_history _ Hr) as (_ & _ & _ & _ & Hdraw).
  destruct (reachable_inv _ Hr) as (Hbs & Hlen & Hf & _).
  specialize (Hdraw Hd). split; [exact Hdraw|].
  assert (Hfull : filled (cells (g_board g)) = length (cells (g_board g))) by lia.
  split; [apply legal_from_full, Hfull|].
  intros i. destruct (place_stone g i) as [g' [r|e]] eqn:E.
  - exfalso. destruct (place_stone_ok _ _ _ _ E) as (Hget & _).
    pose proof (filled_lt_of_empty _ _ Hget). lia.
  - exists e. rewrite (place_stone_err _ _ _ _ E). reflexivity.
Qed.


Lemma draw_is_final_witness :
  reachable draw_1x1 /\ g_game_result draw_1x1 = Some Draw /\
  (g_turn_count draw_1x1 = g_board_size draw_1x1 * g_board_size draw_1x1 /\
   legal_moves (g_board draw_1x1) = [] /\
   (forall i, exists e, place_stone draw_1x1 i = (draw_1x1, inr e))).
Proof.
  assert (Hr : reachable draw_1x1) by (apply played_reachable; vm_compute; discriminate).
  assert (Hd : g_game_result draw_1x1 = Some Draw) by (vm_compute; reflexivity).
  split; [exact Hr|]. split; [exact Hd|]. exact (draw_is_final _ Hr Hd).
Defined.

(** X10: [generate_history_boards] always yields four frames tagged with
    the requested player.  For the player to move in a reachable game with
    at least two moves played, the frames contain the current board, yet
    the last frame is an older board with fewer stones: the boards found
    in the history are listed newest first, after the empty padding. *)
Theorem generate_history_boards_order g :
  (forall p, length (generate_history_boards p g) = 4 /\
             Forall (fun tb => fst tb = p) (generate_history_boards p g)) /\
  (reachable g -> 2 <= g_turn_count g ->
   In (g_turn g, g_board g) (generate_history_boards (g_turn g) g) /\
   exists tb, last (generate_history_boards (g_turn g) g) = Some tb /\
              filled (cells (snd tb)) < filled (cells (g_board g))).
Proof.
  split; [intros p; apply generate_history_boards_shape|].
  intros Hr H2. destruct (reachable_history _ Hr) as (Ht & Hl & Hlast & Hh & _).
  destruct (reachable_inv _ Hr) as (_ & _ & Hfill & _).
  apply last_Some in Hlast. destruct Hlast as [h0 Eh].
  set (p := g_turn g).
  assert (Hl0 : length h0 = g_turn_count g) by (rewrite Eh, length_app in Hl; simpl in Hl; lia).
  set (P := fun q : Turn * Board => bool_decide (fst q = p)).
  set (rest := take 3 (map (fun q => (p, snd q)) (List.filter P (rev h0)))).
  assert (Hfound : generate_history_boards p g
                   = repeat (p, Board_new (g_board_size g)) (4 - S (length rest)) ++ (p, g_board g) :: rest).
  { unfold generate_history_boards. rewrite Eh, rev_app_distr. simpl.
    unfold P. rewrite bool_decide_eq_true_2 by reflexivity. simpl. reflexivity. }
  (* an older board of the player *)
  assert (Hold : exists tb, h0 !! (g_turn_count g - 2) = Some tb /\ fst tb = p).
  { destruct (lookup_lt_is_Some_2 h0 (g_turn_count g - 2)) as [tb Htb]; [lia|].
    exists tb. split; [exact Htb|].
    assert (Hj : g_history g !! (g_turn_count g - 2) = Some tb)
      by (rewrite Eh; rewrite lookup_app_l by lia; exact Htb).
    destruct (Hh _ _ Hj) as [Htj _]. rewrite Htj. unfold p. rewrite Ht.
    replace (g_turn_count g) with (S (S (g_turn_count g - 2))) at 2 by lia.
    rewrite !turn_at_S. destruct (turn_at (g_turn_count g - 2)); reflexivity. }
  assert (Hrest : rest <> []).
  { destruct Hold as [tb [Htb Hp]].
    assert (Hin : In tb (List.filter P (rev h0))).
    { apply filter_In. split; [apply in_rev; rewrite rev_involutive; apply list_elem_of_In;
        apply list_elem_of_lookup_2 with (g_turn_count g - 2); exact Htb|].
      unfold P. apply bool_decide_eq_true_2. exact Hp. }
    unfold rest. destruct (List.filter P (rev h0)); [destruct Hin | discriminate]. }
  assert (Hrin : forall q, In q rest -> filled (cells (snd q)) < g_turn_count g).
  { intros q Hq. unfold rest in Hq. apply list_elem_of_In, elem_of_take in Hq.
    destruct Hq as [k [Hk _]]. apply list_elem_of_lookup_2, list_elem_of_In in Hk.
    apply in_map_iff in Hk. destruct Hk as (q' & <- & Hq'). apply filter_In in Hq'.
    destruct Hq' as [Hq' _]. apply in_rev, list_elem_of_In, list_elem_of_lookup_1 in Hq'.
    destruct Hq' as [j Hj]. pose proof (lookup_lt_Some _ _ _ Hj) as Hjl.
    assert (Hj' : g_history g !! j = Some q') by (rewrite Eh, lookup_app_l by lia; exact Hj).
    destruct (Hh _ _ Hj') as (_ & Hfj & _). simpl. lia. }
  rewrite Hfound. split; [apply in_or_app; right; left; reflexivity|].
  destruct (exists_last Hrest) as (r0 & z & Ez).
  exists z. split.
  - rewrite Ez, app_comm_cons, app_assoc. apply last_snoc.
  - rewrite Hfill. apply Hrin. rewrite Ez. apply in_or_app. right. left. reflexivity.
Qed.


Lemma generate_history_boards_order_witness :
  reachable two_moves /\ 2 <= g_turn_count two_moves /\
  (In (g_turn two_moves, g_board two_moves) (generate_history_boards (g_turn two_moves) two_moves) /\
   exists tb, last (generate_history_boards (g_turn two_moves) two_moves) = Some tb /\
              filled (cells (snd tb)) < filled (cells (g_board two_moves))).
Proof.
  assert (Hr : reachable two_moves) by (apply played_reachable; vm_compute; discriminate).
  assert (H2 : 2 <= g_turn_count two_moves) by (vm_compute; lia).
  split; [exact Hr|]. split; [exact H2|].
  exact (proj2 (generate_history_boards_order two_moves) Hr H2).
Defined.

(** ** Further properties of replay generation and the TD target *)

Lemma compute_nonterminal_reward_range r :
  compute_nonterminal_reward r = 0%Z \/ compute_nonterminal_reward r = 1%Z.
Proof.
  unfold compute_nonterminal_reward.
  destruct (head (count_consecutive_cells _ _ _)) as [n'|];
    [destruct ((4 <=? n') && (n' <=? 5))|];
  destruct (head (r_consecutive_stones r)) as [n|]; try destruct ((3 <=? n) && (n <=? 5)); auto.
Qed.

(** X11: every step emitted by [sample_replay] has "next" frames exactly
    when it carries no game result; a terminal step has reward 100 or
    -100, a non-terminal one 0 or 1; its "before" frames are four frames
    tagged with the returned learner turn. *)
Theorem sample_replay_step_shape forward g t o d g' t' step :
  sample_replay forward g t o d = Done (g', t', step) ->
  (rs_next_boards step = None <-> rs_game_result step <> None) /\
  (rs_game_result step <> None -> rs_reward step = 100%Z \/ rs_reward step = (-100)%Z) /\
  (rs_game_result step = None -> rs_reward step = 0%Z \/ rs_reward step = 1%Z) /\
  length (rs_boards step) = 4 /\ Forall (fun tb => fst tb = t') (rs_boards step).
Proof.
  unfold sample_replay. destruct (sample_prefix forward g t o d) as [[gl tl]|]; [|discriminate].
  simpl. unfold sample_from.
  destruct (generate_history_boards_shape tl gl) as [Hl Hf].
  destruct (if d_explore d then _ else _) as [a|]; [|discriminate]. simpl.
  destruct (place_unwrap gl a) as [[g1 r1]|]; [|discriminate]. simpl.
  destruct (is_Some_dec (r_game_result r1)) as [[x Hx]|Hn1].
  { intros [= <- <- <-]. simpl. rewrite Hx.
    repeat split; auto; try congruence. }
  destruct (generate_move forward o g1 (d_opp d)) as [b|]; [|discriminate]. simpl.
  destruct (place_unwrap g1 b) as [[g2 r2]|]; [|discriminate]. simpl.
  destruct (is_Some_dec (r_game_result r2)) as [[x Hx]|Hn2].
  { intros [= <- <- <-]. simpl. rewrite Hx. repeat split; auto; try congruence. }
  intros [= <- <- <-]. simpl.
  assert (Hr1 : r_game_result r1 = None) by (destruct (r_game_result r1); [exfalso; apply Hn1; eexists; reflexivity | reflexivity]).
  rewrite Hr1. repeat split; auto; try congruence.
  intros _. apply compute_nonterminal_reward_range.
Qed.

Lemma sample_replay_step_shape_witness :
  exists g' t' step,
    sample_replay (fun _ => []) (Game_new 15 5) TBlack Random replay_draws = Done (g', t', step) /\
    ((rs_next_boards step = None <-> rs_game_result step <> None) /\
     (rs_game_result step <> None -> rs_reward step = 100%Z \/ rs_reward step = (-100)%Z) /\
     (rs_game_result step = None -> rs_reward step = 0%Z \/ rs_reward step = 1%Z) /\
     length (rs_boards step) = 4 /\ Forall (fun tb => fst tb = t') (rs_boards step)).
Proof.
  do 3 eexists. split; [vm_compute; reflexivity|].
  eapply (sample_replay_step_shape (fun _ => []) (Game_new 15 5) TBlack Random replay_draws).
  vm_compute. reflexivity.
Defined.

(** X12: after a non-terminal step, the game returned by
    [sample_replay] is in progress with the learner to move, and the
    step is the learner's with the learner's frames of that game as
    "next" frames; so the next call starts with the learner's move. *)
Theorem sample_replay_nonterminal_state forward g t o d g' t' step :
  sample_replay forward g t o d = Done (g', t', step) ->
  rs_game_result step = None ->
  g_turn g' = t' /\ g_game_result g' = None /\ rs_turn step = t' /\
  rs_next_boards step = Some (generate_history_boards t' g').
Proof.
  unfold sample_replay. destruct (sample_prefix forward g t o d) as [[gl tl]|] eqn:Hpre; [|discriminate].
  pose proof (sample_prefix_turn _ _ _ _ _ _ _ Hpre) as Htl.
  simpl. unfold sample_from.
  destruct (if d_explore d then _ else _) as [a|]; [|discriminate]. simpl.
  destruct (place_unwrap gl a) as [[g1 r1]|] eqn:E1; [|discriminate]. simpl.
  destruct (is_Some_dec (r_game_result r1)) as [[x Hx]|Hn1].
  { intros [= <- <- <-]. simpl. congruence. }
  destruct (generate_move forward o g1 (d_opp d)) as [b|]; [|discriminate]. simpl.
  destruct (place_unwrap g1 b) as [[g2 r2]|] eqn:E2; [|discriminate]. simpl.
  destruct (is_Some_dec (r_game_result r2)) as [[x Hx]|Hn2].
  { intros [= <- <- <-]. simpl. congruence. }
  intros [= <- <- <-] _. simpl.
  apply place_unwrap_ok in E1, E2.
  destruct (place_stone_ok _ _ _ _ E1) as (_ & Hg1 & Hr1).
  destruct (place_stone_ok _ _ _ _ E2) as (_ & Hg2 & Hr2).
  assert (Ht2 : g_turn g2 = tl) by (rewrite Hg2, Hg1; simpl; rewrite Htl; destruct tl; reflexivity).
  assert (Hres2 : g_game_result g2 = r_game_result r2) by (rewrite Hg2, Hr2; reflexivity).
  split; [exact Ht2|]. split.
  - rewrite Hres2. destruct (r_game_result r2); [exfalso; apply Hn2; eexists; reflexivity | reflexivity].
  - split; [rewrite Hr1; simpl; exact Htl | rewrite Ht2; reflexivity].
Qed.

Lemma sample_replay_nonterminal_state_witness :
  exists g' t' step,
    sample_replay (fun _ => []) (Game_new 15 5) TBlack Random replay_draws = Done (g', t', step) /\
    rs_game_result step = None /\
    (g_turn g' = t' /\ g_game_result g' = None /\ rs_turn step = t' /\
     rs_next_boards step = Some (generate_history_boards t' g')).
Proof.
  do 3 eexists. split; [vm_compute; reflexivity|]. split; [vm_compute; reflexivity|].
  eapply (sample_replay_nonterminal_state (fun _ => []) (Game_new 15 5) TBlack Random replay_draws);
    vm_compute; reflexivity.
Defined.


Lemma max_by_from_max best l :
  (snd best <= snd (max_by_from best l))%Q /\
  forall q, In q l -> (snd q <= snd (max_by_from best l))%Q.
Proof.
  revert best. induction l as [|p l IH]; intros best; simpl.
  - split; [apply Qle_refl | tauto].
  - destruct (Qlt_le_dec (snd p) (snd best)) as [Hlt|Hle].
    + destruct (IH best) as [H1 H2]. split; [exact H1|].
      intros q [<-|Hq]; [| exact (H2 q Hq)]. apply Qlt_le_weak. exact (Qlt_le_trans _ _ _ Hlt H1).
    + destruct (IH p) as [H1 H2]. split; [exact (Qle_trans _ _ _ Hle H1)|].
      intros q [<-|Hq]; [exact H1 | exact (H2 q Hq)].
Qed.

(** X14: the action selected in the TD target is a legal move of the
    last "before" frame with the largest online value among those legal
    moves; the selection panics only when that board has no legal move
    (or there is no frame). *)
Theorem td_best_action_maximal online step :
  match td_best_action online step with
  | Panic => forall tb, last (rs_boards step) = Some tb -> legal_moves (snd tb) = []
  | Done a =>
      exists tb, last (rs_boards step) = Some tb /\ In a (legal_moves (snd tb)) /\
        forall a', In a' (legal_moves (snd tb)) ->
          (nth a' (online (td_frames step)) 0 <= nth a (online (td_frames step)) 0)%Q
  end.
Proof.
  unfold td_best_action. destruct (last (rs_boards step)) as [tb|]; [|simpl; congruence]. simpl.
  set (row := online (td_frames step)).
  destruct (legal_moves (snd tb)) as [|m l] eqn:El; [simpl; intros tb' [= <-]; exact El|].
  simpl. exists tb. split; [reflexivity|].
  set (p := (m, nth m row 0%Q)). set (ps := map (fun a => (a, nth a row 0%Q)) l).
  rewrite El.
  destruct (max_by_from_in p ps) as [Hin|Hin]; destruct (max_by_from_max p ps) as [H1 H2].
  - split; [rewrite <- Hin; left; reflexivity|].
    intros a' [<-|Ha']; [rewrite <- Hin; apply Qle_refl|].
    rewrite <- Hin in H2 |- *. apply (H2 (a', nth a' row 0%Q)). unfold ps. apply in_map_iff. eauto.
  - unfold ps in Hin. apply in_map_iff in Hin. destruct Hin as (x & Ex & Hx). fold ps in Ex.
    split; [right; rewrite <- Ex; exact Hx|].
    assert (Hs : snd (max_by_from p ps) = nth (fst (max_by_from p ps)) row 0%Q) by (rewrite <- Ex; reflexivity).
    intros a' [<-|Ha']; rewrite <- Hs; [exact H1|].
    apply (H2 (a', nth a' row 0%Q)). unfold ps. apply in_map_iff. eauto.
Qed.

(** X15: [compute_td_target] yields one target per step, in order; for
    a terminal step (one with a game result) the target is its reward,
    for the others it is [reward + gamma * Q_target(selected action)]. *)
Theorem compute_td_target_done_mask online target gamma batch ts :
  compute_td_target online target gamma batch = Done ts ->
  length ts = length batch /\
  forall k s t, batch !! k = Some s -> ts !! k = Some t ->
    exists a, td_best_action online s = Done a /\
      match rs_game_result s with
      | Some _ => (t == inject_Z (rs_reward s))%Q
      | None => (t == inject_Z (rs_reward s) + gamma * nth a (target (td_frames s)) 0)%Q
      end.
Proof.
  revert ts. induction batch as [|s b IH]; intros ts; simpl.
  - intros [= <-]. split; [reflexivity|]. intros k s t Hk. rewrite lookup_nil in Hk. discriminate.
  - destruct (td_target_of online target gamma s) as [t0|] eqn:Et; [|discriminate]. simpl.
    destruct (compute_td_target online target gamma b) as [ts0|]; [|discriminate]. simpl.
    intros [= <-]. destruct (IH ts0 eq_refl) as [Hl Hk].
    split; [simpl; rewrite Hl; reflexivity|].
    intros [|k] s' t Hs Ht; simpl in Hs, Ht; [| exact (Hk k s' t Hs Ht)].
    injection Hs as <-. injection Ht as <-.
    unfold td_target_of in Et. destruct (td_best_action online s) as [a|]; [|discriminate].
    simpl in Et. injection Et as <-. exists a. split; [reflexivity|].
    destruct (rs_game_result s); simpl; ring.
Qed.

Lemma compute_td_target_done_mask_witness :
  exists ts,
    compute_td_target online_prefer_0 online_prefer_0 (1 # 2) [terminal_step] = Done ts /\
    (length ts = length [terminal_step] /\
     forall k s t, [terminal_step] !! k = Some s -> ts !! k = Some t ->
       exists a, td_best_action online_prefer_0 s = Done a /\
         match rs_game_result s with
         | Some _ => (t == inject_Z (rs_reward s))%Q
         | None => (t == inject_Z (rs_reward s) + (1 # 2) * nth a (online_prefer_0 (td_frames s)) 0)%Q
         end).
Proof.
  eexists. split; [vm_compute; reflexivity|].
  apply compute_td_target_done_mask. vm_compute. reflexivity.
Defined.

(** ** Trainer bookkeeping *)

Lemma buffer_push_drop {A} (cap : nat) (buf : list A) (x : A) :
  length buf <= max cap 1 ->
  buffer_push cap buf x = drop (length buf + 1 - max cap 1) (buf ++ [x]).
Proof.
  intros Hl. unfold buffer_push. destruct buf as [|y buf'].
  - simpl. match goal with |- _ = drop ?n _ => replace n with 0 by lia end. reflexivity.
  - simpl. simpl in Hl. destruct (Nat.leb_spec cap (S (length buf'))) as [Hc|Hc]; simpl.
    + match goal with |- _ = drop ?n _ => replace n with 1 by lia end. reflexivity.
    + match goal with |- _ = drop ?n _ => replace n with 0 by lia end. reflexivity.
Qed.

Lemma buffer_fold_drop {A} (cap : nat) (xs buf : list A) :
  length buf <= max cap 1 ->
  fold_left (buffer_push cap) xs buf = drop (length buf + length xs - max cap 1) (buf ++ xs).
Proof.
  revert buf. induction xs as [|x xs IH]; intros buf Hl; simpl.
  - rewrite app_nil_r. replace (length buf + 0 - max cap 1) with 0 by lia. reflexivity.
  - rewrite (buffer_push_drop cap buf x Hl).
    set (a := length buf + 1 - max cap 1).
    assert (Hlen : length (drop a (buf ++ [x])) = length buf + 1 - a)
      by (rewrite length_drop, length_app; simpl; lia).
    rewrite IH by (rewrite Hlen; unfold a; lia). rewrite Hlen.
    rewrite <- drop_app_le by (rewrite length_app; simpl; unfold a; lia).
    rewrite drop_drop, <- app_assoc. simpl. f_equal. unfold a. lia.
Qed.

Lemma swap_remove_0 (l : list Q) (z y : Q) :
  swap_remove ((z :: l) ++ [y]) 0 = Done (y :: l).
Proof.
  unfold swap_remove. rewrite last_snoc.
  rewrite length_app. simpl. replace (length l + 1 - 0) with (length l + 1) by lia.
  replace (length l + 1) with (S (length l)) by lia. simpl.
  f_equal. f_equal. apply take_app_length.
Qed.

Lemma lv_add_small (v : LossVisualizer) (x : Q) :
  length (losses v) < 100 -> lv_add v x = Done (mkLossVisualizer (losses v ++ [x])).
Proof.
  intros H. unfold lv_add. destruct (Nat.leb_spec 100 (length (losses v))); [lia|]. reflexivity.
Qed.

Lemma lv_add_full (l : list Q) (x : Q) :
  length l = 100 ->
  lv_add (mkLossVisualizer l) x = Done (mkLossVisualizer (nth 99 l 0%Q :: take 98 (drop 1 l) ++ [x])).
Proof.
  intros H. unfold lv_add. simpl. rewrite H. simpl.
  destruct (exists_last (l := l)) as (l0 & y & ->); [intros ->; discriminate|].
  rewrite length_app in H. simpl in H.
  destruct l0 as [|z l0]; [simpl in H; lia|]. rewrite swap_remove_0. simpl.
  simpl in H. replace 98 with (length l0) by lia.
  rewrite app_nth2, Nat.sub_diag by lia. simpl. rewrite drop_0, take_app_length. reflexivity.
Qed.

Lemma lv_add_all_app (v : LossVisualizer) (xs ys : list Q) :
  lv_add_all v (xs ++ ys) = (v' ← lv_add_all v xs; lv_add_all v' ys).
Proof.
  revert v. induction xs as [|x xs IH]; intros v; simpl; [reflexivity|].
  destruct (lv_add v x); simpl; [apply IH | reflexivity].
Qed.

Lemma lv_add_all_small (xs : list Q) :
  length xs <= 100 -> lv_add_all LossVisualizer_new xs = Done (mkLossVisualizer xs).
Proof.
  induction xs as [|x xs IH] using rev_ind; intros H; [reflexivity|].
  rewrite length_app in H. simpl in H.
  rewrite lv_add_all_app, IH by lia. simpl.
  rewrite lv_add_small by (simpl; lia). reflexivity.
Qed.

(** X16: the replay buffer of [GomokuDDQNTrainer::train], started empty,
    holds after any sequence of pushes exactly the last
    [max replay_buffer_size 1] pushed steps, oldest first (a size of 0
    still keeps the newest step, because [pop_front] is skipped on an
    empty buffer). *)
Theorem replay_buffer_keeps_last {A} (replay_buffer_size : nat) (xs : list A) :
  fold_left (buffer_push replay_buffer_size) xs [] =
  drop (length xs - max replay_buffer_size 1) xs /\
  length (fold_left (buffer_push replay_buffer_size) xs []) = min (length xs) (max replay_buffer_size 1).
Proof.
  rewrite (buffer_fold_drop replay_buffer_size xs []) by (simpl; lia).
  simpl. split; [reflexivity|]. rewrite length_drop. lia.
Qed.

(** X17: the loss window of [LossVisualizer::add] never panics; it holds
    every loss while at most 100 were added, and after [n >= 101] losses
    [x_0 .. x_(n-1)] it holds [x_(n-2)], then [x_1 .. x_98], then
    [x_(n-1)]: [swap_remove(0)] moves the newest loss to the front, so
    losses 1 to 98 stay forever instead of the window sliding. *)
Theorem loss_visualizer_window (xs : list Q) :
  (length xs <= 100 -> lv_add_all LossVisualizer_new xs = Done (mkLossVisualizer xs)) /\
  (101 <= length xs ->
   lv_add_all LossVisualizer_new xs =
   Done (mkLossVisualizer (nth (length xs - 2) xs 0%Q :: take 98 (drop 1 xs) ++
                           [nth (length xs - 1) xs 0%Q]))).
Proof.
  split; [apply lv_add_all_small|].
  induction xs as [|x xs IH] using rev_ind; intros H; [simpl in H; lia|].
  rewrite length_app in H. simpl in H. rewrite lv_add_all_app.
  assert (Hd : take 98 (drop 1 (xs ++ [x])) = take 98 (drop 1 xs))
    by (rewrite drop_app_le by lia; apply take_app_le; rewrite length_drop; lia).
  rewrite length_app. simpl.
  rewrite app_nth1 by lia. rewrite app_nth2 by lia.
  replace (length xs + 1 - 1 - length xs) with 0 by lia. simpl. rewrite Hd.
  replace (length xs + 1 - 2) with (length xs - 1) by lia.
  destruct (Nat.eq_dec (length xs) 100) as [E|E].
  - rewrite lv_add_all_small by lia. simpl. rewrite lv_add_full by exact E.
    rewrite E. reflexivity.
  - assert (Hl : length (take 98 (drop 1 xs)) = 98) by (rewrite length_take, length_drop; lia).
    rewrite IH by lia. simpl. rewrite lv_add_full by (simpl; rewrite length_app, Hl; reflexivity).
    simpl. rewrite app_nth2 by lia. rewrite Hl. simpl.
    rewrite drop_0, take_app_le by lia. rewrite take_take, Nat.min_id. reflexivity.
Qed.

(** X18: with [0 <= epsilon_decay <= 1] and [0 <= epsilon_min <= epsilon],
    [k] exploration updates of the trainer turn [epsilon] into
    [max(epsilon * epsilon_decay^k, epsilon_min)]. *)
Theorem epsilon_after_updates (epsilon_decay epsilon_min epsilon : Q) (k : nat) :
  (0 <= epsilon_decay)%Q -> (epsilon_decay <= 1)%Q -> (0 <= epsilon_min)%Q ->
  (epsilon_min <= epsilon)%Q ->
  (Nat.iter k (epsilon_update epsilon_decay epsilon_min) epsilon ==
   Qmax (epsilon * qpow epsilon_decay k) epsilon_min)%Q.
Proof.
  intros Hd0 Hd1 Hm He. induction k as [|k IH]; simpl.
  - rewrite Qmult_1_r. symmetry. apply Q.max_l. exact He.
  - unfold epsilon_update. rewrite IH. rewrite Qmult_assoc.
    set (a := (epsilon * qpow epsilon_decay k)%Q).
    assert (Hmd : (epsilon_min * epsilon_decay <= epsilon_min)%Q).
    { rewrite Qmult_comm. rewrite <- (Qmult_1_l epsilon_min) at 2.
      apply Qmult_le_compat_r; assumption. }
    destruct (Qlt_le_dec epsilon_min a) as [Hlt|Hle].
    + rewrite (Q.max_l a epsilon_min) by (apply Qlt_le_weak; exact Hlt). reflexivity.
    + rewrite (Q.max_r a epsilon_min Hle).
      rewrite (Q.max_r (epsilon_min * epsilon_decay) epsilon_min Hmd).
      symmetry. apply Q.max_r. apply (Qle_trans _ (epsilon_min * epsilon_decay)); [|exact Hmd].
      apply Qmult_le_compat_r; assumption.
Qed.

Lemma epsilon_after_updates_witness :
  let epsilon_update_k := Nat.iter 3 (epsilon_update (99 # 100)%Q (1 # 100)%Q) (1 # 2)%Q in
  (0 <= (99 # 100))%Q /\ ((99 # 100) <= 1)%Q /\ (0 <= (1 # 100))%Q /\ ((1 # 100) <= (1 # 2))%Q /\
  (epsilon_update_k == Qmax ((1 # 2)%Q * qpow (99 # 100)%Q 3) (1 # 100)%Q)%Q.
Proof.
  intros epsilon_update_k.
  assert (H1 : (0 <= (99 # 100))%Q) by (unfold Qle; simpl; lia).
  assert (H2 : ((99 # 100) <= 1)%Q) by (unfold Qle; simpl; lia).
  assert (H3 : (0 <= (1 # 100))%Q) by (unfold Qle; simpl; lia).
  assert (H4 : ((1 # 100) <= (1 # 2))%Q) by (unfold Qle; simpl; lia).
  split; [exact H1|]. split; [exact H2|]. split; [exact H3|]. split; [exact H4|].
  exact (epsilon_after_updates (99 # 100)%Q (1 # 100)%Q (1 # 2)%Q 3 H1 H2 H3 H4).
Defined.



(** ** Board encoding *)

Lemma lookup_map_list {A B} (f : A -> B) (l : list A) (i : nat) :
  map f l !! i = option_map f (l !! i).
Proof. revert i. induction l as [|x l IH]; intros [|i]; simpl; auto. Qed.

Lemma lookup_repeat_lt {A} (x : A) (n i : nat) : i < n -> repeat x n !! i = Some x.
Proof. revert i. induction n as [|n IH]; intros [|i] H; simpl; auto; try lia. apply IH. lia. Qed.

Lemma cell_offset_le (pov c : Cell) : cell_offset pov c <= 2.
Proof. destruct c; simpl; [lia| |]; destruct (decide _); lia. Qed.

Lemma encode_cells_lookup (pov : Cell) (cs : list Cell) (i : nat) (data : list Z) :
  i + length cs <= 225 -> length data = 675 ->
  exists data', encode_cells pov i cs data = Done data' /\ length data' = 675 /\
    forall k j, k < 3 -> j < 225 ->
      data' !! (k * 225 + j) =
      if (i <=? j) && (j <? i + length cs) && (cell_offset pov (nth (j - i) cs Empty) =? k)
      then Some 1%Z else data !! (k * 225 + j).
Proof.
  revert i data. induction cs as [|c cs IH]; intros i data Hi Hd.
  - exists data. split; [reflexivity|]. split; [exact Hd|].
    intros k j _ _. simpl. replace (i + 0) with i by lia.
    destruct (i <=? j) eqn:E1; destruct (j <? i) eqn:E2; simpl; try reflexivity.
    apply Nat.leb_le in E1. apply Nat.ltb_lt in E2. lia.
  - simpl in Hi. simpl. pose proof (cell_offset_le pov c) as Hc.
    set (k0 := cell_offset pov c * 15 * 15 + i).
    assert (Hk0 : k0 < length data) by (unfold k0; lia).
    apply Nat.ltb_lt in Hk0. rewrite Hk0. apply Nat.ltb_lt in Hk0.
    destruct (IH (S i) (<[k0:=1%Z]> data)) as (data' & E & Hl & Hlk);
      [lia | rewrite length_insert; exact Hd|].
    exists data'. split; [exact E|]. split; [exact Hl|].
    intros k j Hk Hj. rewrite (Hlk k j Hk Hj).
    destruct (Nat.lt_trichotomy j i) as [Hji|[->|Hji]].
    + replace (S i <=? j) with false by (symmetry; apply Nat.leb_gt; lia).
      replace (i <=? j) with false by (symmetry; apply Nat.leb_gt; lia). simpl.
      apply list_lookup_insert_ne. unfold k0. lia.
    + replace (S i <=? i) with false by (symmetry; apply Nat.leb_gt; lia).
      rewrite Nat.leb_refl, Nat.sub_diag. simpl.
      replace (i <? i + S (length cs)) with true by (symmetry; apply Nat.ltb_lt; lia). simpl.
      destruct (Nat.eqb_spec (cell_offset pov c) k) as [<-|Hne].
      * replace (cell_offset pov c * 225 + i) with k0 by (unfold k0; lia).
        apply list_lookup_insert_eq. exact Hk0.
      * apply list_lookup_insert_ne. unfold k0. lia.
    + replace (S i <=? j) with true by (symmetry; apply Nat.leb_le; lia).
      replace (i <=? j) with true by (symmetry; apply Nat.leb_le; lia).
      replace (j - i) with (S (j - S i)) by lia. simpl.
      replace (j <? S (i + length cs)) with (j <? i + S (length cs)) by (f_equal; lia).
      destruct (j <? i + S (length cs)); simpl; [|apply list_lookup_insert_ne; unfold k0; lia].
      destruct (cell_offset pov (nth (j - S i) cs Empty) =? k); [reflexivity|].
      apply list_lookup_insert_ne. unfold k0. lia.
Qed.

Lemma one_hot_plane_lookup (pov : Cell) (cs : list Cell) (d : list Z) :
  length cs = 225 ->
  (forall k j, k < 3 -> j < 225 ->
     d !! (k * 225 + j) =
     if (0 <=? j) && (j <? 0 + length cs) && (cell_offset pov (nth (j - 0) cs Empty) =? k)
     then Some 1%Z else repeat 0%Z (3 * 15 * 15) !! (k * 225 + j)) ->
  forall k j, k < 3 -> j < 225 -> d !! (k * 225 + j) = one_hot_plane pov k cs !! j.
Proof.
  intros Hcs Hd k j Hk Hj. rewrite (Hd k j Hk Hj), lookup_repeat_lt by lia.
  rewrite Hcs, Nat.sub_0_r. simpl.
  replace (j <? 225) with true by (symmetry; apply Nat.ltb_lt; exact Hj).
  unfold one_hot_plane. rewrite lookup_map_list.
  destruct (nth_lookup_or_length cs j Empty) as [E|E]; [|lia]. rewrite E. simpl.
  destruct (cell_offset pov (nth j cs Empty) =? k); reflexivity.
Qed.

Lemma one_hot_plane_length (pov : Cell) (k : nat) (cs : list Cell) :
  length (one_hot_plane pov k cs) = length cs.
Proof. apply length_map. Qed.

Lemma encode_frame_planes (t : Turn) (b : Board) :
  length (cells b) = 15 * 15 ->
  encode_frame (t, b) =
  Done [repeat (turn_value t) (15 * 15);
        one_hot_plane (cell_of_turn t) 0 (cells b);
        one_hot_plane (cell_of_turn t) 1 (cells b);
        one_hot_plane (cell_of_turn t) 2 (cells b)].
Proof.
  intros Hcs. unfold encode_frame.
  destruct (encode_cells_lookup (cell_of_turn t) (cells b) 0 (repeat 0%Z (3 * 15 * 15)))
    as (d & E & Hl & Hlk); [lia | apply repeat_length |].
  rewrite E. cbn [mbind outcome_bind obind].
  assert (Hc : length (cells b) = 225) by exact Hcs.
  pose proof (one_hot_plane_lookup (cell_of_turn t) (cells b) d Hc Hlk) as Hp.
  assert (H0 : take (15 * 15) d = one_hot_plane (cell_of_turn t) 0 (cells b)).
  { apply list_eq. intros j. rewrite lookup_take. destruct (decide (j < 15 * 15)) as [Hj|Hj].
    - exact (Hp 0 j ltac:(lia) Hj).
    - symmetry. apply lookup_ge_None_2. rewrite one_hot_plane_length. lia. }
  assert (H1 : take (15 * 15) (drop (15 * 15) d) = one_hot_plane (cell_of_turn t) 1 (cells b)).
  { apply list_eq. intros j. rewrite lookup_take. destruct (decide (j < 15 * 15)) as [Hj|Hj].
    - rewrite lookup_drop. exact (Hp 1 j ltac:(lia) Hj).
    - symmetry. apply lookup_ge_None_2. rewrite one_hot_plane_length. lia. }
  assert (H2 : drop (2 * 15 * 15) d = one_hot_plane (cell_of_turn t) 2 (cells b)).
  { apply list_eq. intros j. rewrite lookup_drop. destruct (decide (j < 15 * 15)) as [Hj|Hj].
    - exact (Hp 2 j ltac:(lia) Hj).
    - rewrite !lookup_ge_None_2; [reflexivity | rewrite one_hot_plane_length; lia | lia]. }
  rewrite H0, H1, H2. reflexivity.
Qed.

Lemma one_hot_plane_swap (t : Turn) (k : nat) (cs : list Cell) :
  one_hot_plane (cell_of_turn (next t)) k (map swap_cell cs) = one_hot_plane (cell_of_turn t) k cs.
Proof.
  unfold one_hot_plane. rewrite map_map. apply map_ext. intros c.
  destruct t, c; reflexivity.
Qed.

Lemma reachable_history_cells g :
  reachable g ->
  forall j tb, g_history g !! j = Some tb ->
    length (cells (snd tb)) = g_board_size g * g_board_size g.
Proof.
  induction 1 as [n k | g i g' r Hr IH Hp].
  - intros [|j] tb; simpl; [intros [= <-]; apply repeat_length|]. rewrite lookup_nil. discriminate.
  - destruct (reachable_inv _ Hr) as (Hbs & Hlen & _).
    destruct (place_stone_ok _ _ _ _ Hp) as (_ & -> & _).
    cbn [g_history g_board_size]. intros j tb Hj.
    apply lookup_app_Some in Hj. destruct Hj as [Hj | [_ Hj]]; [exact (IH j tb Hj)|].
    destruct (j - length (g_history g)); [|simpl in Hj; discriminate].
    simpl in Hj. injection Hj as <-. simpl. rewrite length_insert. exact Hlen.
Qed.

Lemma generate_history_boards_cells player g :
  reachable g ->
  Forall (fun tb => length (cells (snd tb)) = g_board_size g * g_board_size g)
    (generate_history_boards player g).
Proof.
  intros Hr. unfold generate_history_boards. apply Forall_app. split.
  - apply List.Forall_forall. intros x Hx. apply repeat_spec in Hx. subst x. apply repeat_length.
  - apply Forall_take. apply List.Forall_forall. intros x Hx.
    apply in_map_iff in Hx. destruct Hx as (p & <- & Hp).
    apply filter_In in Hp. destruct Hp as [Hp _]. apply in_rev in Hp.
    apply list_elem_of_In in Hp. apply list_elem_of_lookup_1 in Hp. destruct Hp as (j & Hj).
    exact (reachable_history_cells g Hr j p Hj).
Qed.

Lemma create_board_tensor_shape (boards : list (Turn * Board)) :
  Forall (fun tb => length (cells (snd tb)) = 15 * 15) boards ->
  exists planes, create_board_tensor boards = Done planes /\
    length planes = 4 * length boards /\ Forall (fun p => length p = 15 * 15) planes.
Proof.
  induction 1 as [|[t b] bs Hb _ IH]; [exists []; split; [reflexivity | split; [reflexivity | constructor]]|].
  destruct IH as (planes & E & Hl & Hf). simpl in Hb.
  eexists. cbn [create_board_tensor]. rewrite (encode_frame_planes t b Hb), E. cbn [mbind outcome_bind obind].
  split; [reflexivity|]. split; [simpl; lia|].
  repeat constructor; first [exact Hf | apply repeat_length | rewrite one_hot_plane_length; exact Hb].
Qed.

(** X20: for a board of 15 x 15 cells, one frame of [create_board_tensor]
    is exactly four planes: the turn value ([1] black, [-1] white)
    everywhere, then the one-hot planes of the empty cells, of the stones
    of the frame's player and of the opponent's stones. *)
Theorem encode_frame_one_hot (t : Turn) (b : Board) :
  length (cells b) = 15 * 15 ->
  encode_frame (t, b) =
  Done [repeat (turn_value t) (15 * 15);
        one_hot_plane (cell_of_turn t) 0 (cells b);
        one_hot_plane (cell_of_turn t) 1 (cells b);
        one_hot_plane (cell_of_turn t) 2 (cells b)].
Proof. apply encode_frame_planes. Qed.

Lemma encode_frame_one_hot_witness :
  length (cells (g_board two_moves)) = 15 * 15 /\
  encode_frame (TWhite, g_board two_moves) =
  Done [repeat (turn_value TWhite) (15 * 15);
        one_hot_plane (cell_of_turn TWhite) 0 (cells (g_board two_moves));
        one_hot_plane (cell_of_turn TWhite) 1 (cells (g_board two_moves));
        one_hot_plane (cell_of_turn TWhite) 2 (cells (g_board two_moves))].
Proof.
  assert (H : length (cells (g_board two_moves)) = 15 * 15) by (vm_compute; reflexivity).
  split; [exact H|]. exact (encode_frame_one_hot TWhite (g_board two_moves) H).
Defined.

(** X21: the encoding only sees stones relative to the frame's player:
    swapping every stone's color and the player gives the same three
    board planes, and only the turn plane changes sign. *)
Theorem encode_frame_color_swap (t : Turn) (b : Board) :
  length (cells b) = 15 * 15 ->
  exists p1 p2 p3,
    encode_frame (t, b) = Done [repeat (turn_value t) (15 * 15); p1; p2; p3] /\
    encode_frame (next t, swap_board b) = Done [repeat (- turn_value t)%Z (15 * 15); p1; p2; p3].
Proof.
  intros H. do 3 eexists. split; [exact (encode_frame_planes t b H)|].
  rewrite (encode_frame_planes (next t) (swap_board b)) by (simpl; rewrite length_map; exact H).
  simpl cells. rewrite !one_hot_plane_swap. destruct t; reflexivity.
Qed.

Lemma encode_frame_color_swap_witness :
  length (cells (g_board two_moves)) = 15 * 15 /\
  exists p1 p2 p3,
    encode_frame (TBlack, g_board two_moves) = Done [repeat (turn_value TBlack) (15 * 15); p1; p2; p3] /\
    encode_frame (next TBlack, swap_board (g_board two_moves)) =
      Done [repeat (- turn_value TBlack)%Z (15 * 15); p1; p2; p3].
Proof.
  assert (H : length (cells (g_board two_moves)) = 15 * 15) by (vm_compute; reflexivity).
  split; [exact H|]. exact (encode_frame_color_swap TBlack (g_board two_moves) H).
Defined.

(** X22: on any reachable 15 x 15 game, the network input built from
    [generate_history_boards] never panics: it has 16 planes of 225
    values each, the shape the model views as [[-1, 16, 15, 15]]. *)
Theorem agent_input_tensor_shape (player : Turn) (g : Game) :
  reachable g -> g_board_size g = 15 ->
  exists planes, create_board_tensor (generate_history_boards player g) = Done planes /\
    length planes = 16 /\ Forall (fun p => length p = 15 * 15) planes.
Proof.
  intros Hr Hn.
  destruct (create_board_tensor_shape (generate_history_boards player g)) as (planes & E & Hl & Hf).
  - pose proof (generate_history_boards_cells player g Hr) as Hc. rewrite Hn in Hc. exact Hc.
  - exists planes. split; [exact E|]. split; [|exact Hf].
    rewrite Hl. destruct (generate_history_boards_shape player g) as [H4 _]. rewrite H4. reflexivity.
Qed.

Lemma agent_input_tensor_shape_witness :
  reachable two_moves /\ g_board_size two_moves = 15 /\
  exists planes, create_board_tensor (generate_history_boards TBlack two_moves) = Done planes /\
    length planes = 16 /\ Forall (fun p => length p = 15 * 15) planes.
Proof.
  assert (Hr : reachable two_moves) by (apply played_reachable; vm_compute; discriminate).
  assert (Hn : g_board_size two_moves = 15) by (vm_compute; reflexivity).
  split; [exact Hr|]. split; [exact Hn|]. exact (agent_input_tensor_shape TBlack two_moves Hr Hn).
Defined.

(** ** Coordinate parser *)

Section ParserFacts.
Import IndexParser.







(** Character facts, checked on the 256 ASCII characters. *)
Lemma lower_whitespace c : is_whitespace (to_ascii_lowercase c) = is_whitespace c.
Proof. destruct c as [[] [] [] [] [] [] [] []]; reflexivity. Qed.
Lemma lower_alphabetic c : is_ascii_alphabetic (to_ascii_lowercase c) = is_ascii_alphabetic c.
Proof. destruct c as [[] [] [] [] [] [] [] []]; reflexivity. Qed.
Lemma lower_digit c : is_ascii_digit (to_ascii_lowercase c) = is_ascii_digit c.
Proof. destruct c as [[] [] [] [] [] [] [] []]; reflexivity. Qed.
Lemma lower_idem c : to_ascii_lowercase (to_ascii_lowercase c) = to_ascii_lowercase c.
Proof. destruct c as [[] [] [] [] [] [] [] []]; reflexivity. Qed.
Lemma lower_of_digit c : is_ascii_digit c = true -> to_ascii_lowercase c = c.
Proof. destruct c as [[] [] [] [] [] [] [] []]; first [reflexivity | discriminate]. Qed.
Lemma lower_of_whitespace c : is_whitespace c = true -> to_ascii_lowercase c = c.
Proof. destruct c as [[] [] [] [] [] [] [] []]; first [reflexivity | discriminate]. Qed.
Lemma whitespace_not_alphabetic c : is_whitespace c = true -> is_ascii_alphabetic c = false.
Proof. destruct c as [[] [] [] [] [] [] [] []]; first [reflexivity | discriminate]. Qed.
Lemma whitespace_not_digit c : is_whitespace c = true -> is_ascii_digit c = false.
Proof. destruct c as [[] [] [] [] [] [] [] []]; first [reflexivity | discriminate]. Qed.

(** Lowercasing the input. *)
Lemma skip_lower cs : skip_whitespace (map to_ascii_lowercase cs) = map to_ascii_lowercase (skip_whitespace cs).
Proof.
  induction cs as [|c cs IH]; simpl; [reflexivity|]. rewrite lower_whitespace.
  destruct (is_whitespace c); [exact IH | reflexivity].
Qed.

Lemma read_alpha_loop_lower cs :
  read_alpha_loop (map to_ascii_lowercase cs) =
  (fst (read_alpha_loop cs), map to_ascii_lowercase (snd (read_alpha_loop cs))).
Proof.
  induction cs as [|c cs IH]; simpl; [reflexivity|]. rewrite lower_alphabetic.
  destruct (is_ascii_alphabetic c); [|reflexivity].
  rewrite IH. destruct (read_alpha_loop cs). simpl. rewrite lower_idem. reflexivity.
Qed.

Lemma read_number_loop_lower cs :
  read_number_loop (map to_ascii_lowercase cs) =
  (fst (read_number_loop cs), map to_ascii_lowercase (snd (read_number_loop cs))).
Proof.
  induction cs as [|c cs IH]; simpl; [reflexivity|]. rewrite lower_digit.
  destruct (is_ascii_digit c) eqn:Ed; [|reflexivity].
  rewrite IH. destruct (read_number_loop cs). simpl. rewrite (lower_of_digit c Ed). reflexivity.
Qed.

Lemma read_alpha_lower cs :
  read_alpha (map to_ascii_lowercase cs) =
  (fst (read_alpha cs), map to_ascii_lowercase (snd (read_alpha cs))).
Proof.
  unfold read_alpha. rewrite read_alpha_loop_lower. destruct (read_alpha_loop cs) as [[|a l] r]; reflexivity.
Qed.

Lemma read_number_lower cs :
  read_number (map to_ascii_lowercase cs) =
  (fst (read_number cs), map to_ascii_lowercase (snd (read_number cs))).
Proof.
  unfold read_number. rewrite read_number_loop_lower. destruct (read_number_loop cs) as [[|a l] r]; reflexivity.
Qed.

Lemma is_end_lower cs : is_end (map to_ascii_lowercase cs) = is_end cs.
Proof. destruct cs; reflexivity. Qed.

Lemma parse_lower size s : parse size (map to_ascii_lowercase s) = parse size s.
Proof.
  unfold parse, parse_pattern_alpha_number, parse_pattern_number_alpha,
    parse_pattern_number_number, parse_pattern_number.
  rewrite skip_lower, read_alpha_lower.
  destruct (read_alpha (skip_whitespace s)) as [[a|] r]; cbn [fst snd].
  - rewrite skip_lower, read_number_lower.
    destruct (read_number (skip_whitespace r)) as [[nb|] r']; cbn [fst snd]; [|reflexivity].
    rewrite skip_lower, is_end_lower. reflexivity.
  - rewrite read_number_lower. destruct (read_number r) as [[nb|] r']; cbn [fst snd]; [|reflexivity].
    rewrite skip_lower, read_alpha_lower.
    destruct (read_alpha (skip_whitespace r')) as [[a|] r'']; cbn [fst snd].
    + rewrite skip_lower, is_end_lower. reflexivity.
    + rewrite read_number_lower. destruct (read_number r'') as [[nb2|] r3]; cbn [fst snd].
      * rewrite skip_lower, is_end_lower. reflexivity.
      * rewrite is_end_lower, skip_lower, is_end_lower. reflexivity.
Qed.


(** Whitespace around the input. *)
Lemma skip_ws_prefix w cs :
  Forall (fun c => is_whitespace c = true) w -> skip_whitespace (w ++ cs) = skip_whitespace cs.
Proof. induction 1 as [|c w Hc _ IH]; simpl; [reflexivity|]. rewrite Hc. exact IH. Qed.

Lemma skip_ws_suffix x w :
  Forall (fun c => is_whitespace c = true) w ->
  skip_whitespace (x ++ w) = match skip_whitespace x with [] => [] | _ => skip_whitespace x ++ w end.
Proof.
  intros Hw. induction x as [|c x IH]; simpl.
  - pose proof (skip_ws_prefix w [] Hw) as H. rewrite app_nil_r in H. exact H.
  - destruct (is_whitespace c); [exact IH | reflexivity].
Qed.

Lemma read_alpha_loop_ws x w :
  Forall (fun c => is_whitespace c = true) w ->
  read_alpha_loop (x ++ w) = (fst (read_alpha_loop x), snd (read_alpha_loop x) ++ w).
Proof.
  intros Hw. induction x as [|c x IH]; simpl.
  - destruct Hw as [|c w Hc _]; [reflexivity|]. simpl. rewrite (whitespace_not_alphabetic c Hc). reflexivity.
  - destruct (is_ascii_alphabetic c); [|reflexivity]. rewrite IH. destruct (read_alpha_loop x); reflexivity.
Qed.

Lemma read_number_loop_ws x w :
  Forall (fun c => is_whitespace c = true) w ->
  read_number_loop (x ++ w) = (fst (read_number_loop x), snd (read_number_loop x) ++ w).
Proof.
  intros Hw. induction x as [|c x IH]; simpl.
  - destruct Hw as [|c w Hc _]; [reflexivity|]. simpl. rewrite (whitespace_not_digit c Hc). reflexivity.
  - destruct (is_ascii_digit c); [|reflexivity]. rewrite IH. destruct (read_number_loop x); reflexivity.
Qed.

Lemma read_alpha_ws x w :
  Forall (fun c => is_whitespace c = true) w ->
  read_alpha (x ++ w) = (fst (read_alpha x), snd (read_alpha x) ++ w).
Proof.
  intros Hw. unfold read_alpha. rewrite (read_alpha_loop_ws x w Hw).
  destruct (read_alpha_loop x) as [[|a l] r]; reflexivity.
Qed.

Lemma read_number_ws x w :
  Forall (fun c => is_whitespace c = true) w ->
  read_number (x ++ w) = (fst (read_number x), snd (read_number x) ++ w).
Proof.
  intros Hw. unfold read_number. rewrite (read_number_loop_ws x w Hw).
  destruct (read_number_loop x) as [[|a l] r]; reflexivity.
Qed.

Lemma read_alpha_none x r : read_alpha x = (None, r) -> r = x.
Proof.
  unfold read_alpha. destruct x as [|c x]; simpl; [congruence|].
  destruct (is_ascii_alphabetic c); [destruct (read_alpha_loop x); discriminate | congruence].
Qed.

Lemma read_number_none x r : read_number x = (None, r) -> r = x.
Proof.
  unfold read_number. destruct x as [|c x]; simpl; [congruence|].
  destruct (is_ascii_digit c); [destruct (read_number_loop x); discriminate | congruence].
Qed.

Lemma skip_ws_end x w :
  Forall (fun c => is_whitespace c = true) w ->
  is_end (skip_whitespace (x ++ w)) = is_end (skip_whitespace x).
Proof. intros Hw. rewrite (skip_ws_suffix x w Hw). destruct (skip_whitespace x); reflexivity. Qed.

Lemma parse_ws_suffix size s w :
  Forall (fun c => is_whitespace c = true) w -> parse size (s ++ w) = parse size s.
Proof.
  intros Hw.
  unfold parse, parse_pattern_alpha_number, parse_pattern_number_alpha,
    parse_pattern_number_number, parse_pattern_number.
  rewrite (skip_ws_suffix s w Hw).
  destruct (skip_whitespace s) as [|c0 s0] eqn:Es; [reflexivity|].
  rewrite (read_alpha_ws _ w Hw).
  destruct (read_alpha (c0 :: s0)) as [[a|] r] eqn:Ea; cbn [fst snd].
  - rewrite (skip_ws_suffix r w Hw). destruct (skip_whitespace r) as [|c1 r1]; [reflexivity|].
    rewrite (read_number_ws _ w Hw).
    destruct (read_number (c1 :: r1)) as [[nb|] r']; cbn [fst snd]; [|reflexivity].
    rewrite (skip_ws_end r' w Hw). reflexivity.
  - rewrite (read_number_ws r w Hw).
    destruct (read_number r) as [[nb|] r'] eqn:En; cbn [fst snd]; [|reflexivity].
    rewrite (skip_ws_suffix r' w Hw). destruct (skip_whitespace r') as [|c1 r1] eqn:Er'.
    + reflexivity.
    + rewrite (read_alpha_ws _ w Hw).
      destruct (read_alpha (c1 :: r1)) as [[a|] r''] eqn:Ea'; cbn [fst snd].
      * rewrite (skip_ws_end r'' w Hw). reflexivity.
      * rewrite (read_number_ws r'' w Hw).
        destruct (read_number r'') as [[nb2|] r3] eqn:En'; cbn [fst snd].
        -- rewrite (skip_ws_end r3 w Hw). reflexivity.
        -- apply read_alpha_none in Ea'. apply read_number_none in En'. subst r'' r3.
           reflexivity.
Qed.






End ParserFacts.




(** X24: [Board::parse_index] ignores letter case: lowercasing the input
    never changes the result (including a panic). *)
Theorem parse_index_case_insensitive (b : Board) (s : list Ascii.ascii) :
  parse_index b (map IndexParser.to_ascii_lowercase s) = parse_index b s.
Proof. unfold parse_index. rewrite parse_lower. reflexivity. Qed.

(** X25: whitespace before and after the coordinates does not change the
    result of [Board::parse_index]; in particular the trailing newline
    that [read_line] leaves in the CLI's input is harmless. *)
Theorem parse_index_surrounding_whitespace (b : Board) (w1 s w2 : list Ascii.ascii) :
  Forall (fun c => IndexParser.is_whitespace c = true) w1 ->
  Forall (fun c => IndexParser.is_whitespace c = true) w2 ->
  parse_index b (w1 ++ s ++ w2) = parse_index b s.
Proof.
  intros H1 H2. unfold parse_index, IndexParser.parse.
  rewrite (skip_ws_prefix w1 (s ++ w2) H1).
  fold (IndexParser.parse (N.of_nat (board_size b)) (s ++ w2)).
  rewrite (parse_ws_suffix _ s w2 H2). reflexivity.
Qed.

Lemma parse_index_surrounding_whitespace_witness :
  Forall (fun c => IndexParser.is_whitespace c = true) (str "  "%string) /\
  Forall (fun c => IndexParser.is_whitespace c = true) [Ascii.ascii_of_nat 10] /\
  parse_index (g_board two_moves) (str "  "%string ++ str "h8"%string ++ [Ascii.ascii_of_nat 10]) =
  parse_index (g_board two_moves) (str "h8"%string).
Proof.
  assert (H1 : Forall (fun c => IndexParser.is_whitespace c = true) (str "  "%string)) by (repeat constructor).
  assert (H2 : Forall (fun c => IndexParser.is_whitespace c = true) [Ascii.ascii_of_nat 10]) by (repeat constructor).
  split; [exact H1|]. split; [exact H2|].
  exact (parse_index_surrounding_whitespace (g_board two_moves) (str "  "%string) (str "h8"%string) [Ascii.ascii_of_nat 10] H1 H2).
Defined.




